(** * mal-gtk: the anime (de)serializer and the ordered catalog collections

    A shallow embedding of [src/anime_serializer.cpp] (the name table, the
    setter table, [AnimeSerializer::deserialize] and
    [AnimeSerializer::serialize]) and of the collection comparator of
    [src/mal.hpp] ([MAL::MALItemComparator]), followed by the properties
    established about them. *)

From Stdlib Require Import String Ascii List ZArith Bool Lia.
From Stdlib Require Import DecimalString DecimalZ Sorted.
Import ListNotations.

Local Open Scope string_scope.
Local Open Scope Z_scope.

(* ================================================================== *)
(** * Part I: the program *)
(* ================================================================== *)

(** ** [enum FIELDS : int_fast8_t] *)

Inductive FIELDS : Set :=
| FIELDNONE | FIELDTEXT
| ANIMEDBID | SERIESTITLE | SERIESTYPE | SERIESEPISODES | SERIESSTATUS
| SERIESDATEBEGIN | SERIESDATEEND | SERIESIMAGEURL | SERIESSYNONYMS
| ANIME | ENTRY | MYID | MYWATCHEDEPISODES | MYSTARTDATE | MYFINISHDATE | MYSCORE
| MYSTATUS | MYREWATCHING | MYREWATCHINGEP | MYLASTUPDATED | MYTAGS
| USERID | SYNOPSIS.

(** The enumerators' integer values, in declaration order. *)
Definition FIELDS_value (f : FIELDS) : Z :=
  match f with
  | FIELDNONE => 0 | FIELDTEXT => 1
  | ANIMEDBID => 2 | SERIESTITLE => 3 | SERIESTYPE => 4 | SERIESEPISODES => 5
  | SERIESSTATUS => 6 | SERIESDATEBEGIN => 7 | SERIESDATEEND => 8
  | SERIESIMAGEURL => 9 | SERIESSYNONYMS => 10
  | ANIME => 11 | ENTRY => 12 | MYID => 13 | MYWATCHEDEPISODES => 14
  | MYSTARTDATE => 15 | MYFINISHDATE => 16 | MYSCORE => 17
  | MYSTATUS => 18 | MYREWATCHING => 19 | MYREWATCHINGEP => 20
  | MYLASTUPDATED => 21 | MYTAGS => 22
  | USERID => 23 | SYNOPSIS => 24
  end.

(** [operator==] on the enumeration. *)
Definition FIELDS_eqb (f g : FIELDS) : bool := FIELDS_value f =? FIELDS_value g.

(** ** [std::to_string] on integers *)

Definition to_string (z : Z) : string := NilZero.string_of_int (Z.to_int z).

(** ** The item record *)

(** Modelled from the spec: the declaration of [MAL::Anime] ([anime.hpp]) is
    not among the sources.  The record has the fields of the spec's item
    record; the fields that [serialize] and [MALItemComparator] read keep the
    names the source uses, the others are named after their setter.  Counts,
    enumerations and the score are integers, dates are kept as the text
    received. *)
Record Anime : Type := {
  series_itemdb_id : Z;
  series_title : string;
  series_synonyms : list string;
  series_type : Z;
  series_episodes : Z;
  series_status : Z;
  series_date_begin : string;
  series_date_end : string;
  image_url : string;
  series_synopsis : string;
  my_id : Z;
  episodes : Z;
  status : Z;
  score : Z;
  downloaded_items : Z;
  date_start : string;
  date_finish : string;
  enable_reconsuming : bool;
  rewatch_episode : Z;
  tags : list string;
  last_updated : string
}.

Definition Anime_new : Anime := {|
  series_itemdb_id := 0;
  series_title := EmptyString;
  series_synonyms := [];
  series_type := 0;
  series_episodes := 0;
  series_status := 0;
  series_date_begin := EmptyString;
  series_date_end := EmptyString;
  image_url := EmptyString;
  series_synopsis := EmptyString;
  my_id := 0;
  episodes := 0;
  status := 0;
  score := 0;
  downloaded_items := 0;
  date_start := EmptyString;
  date_finish := EmptyString;
  enable_reconsuming := false;
  rewatch_episode := 0;
  tags := [];
  last_updated := EmptyString
|}.

Definition with_series_itemdb_id (v : Z) (a : Anime) : Anime :=
  {| series_itemdb_id := v; series_title := series_title a; series_synonyms := series_synonyms a;
     series_type := series_type a; series_episodes := series_episodes a; series_status := series_status a;
     series_date_begin := series_date_begin a; series_date_end := series_date_end a; image_url := image_url a;
     series_synopsis := series_synopsis a; my_id := my_id a; episodes := episodes a;
     status := status a; score := score a; downloaded_items := downloaded_items a;
     date_start := date_start a; date_finish := date_finish a; enable_reconsuming := enable_reconsuming a;
     rewatch_episode := rewatch_episode a; tags := tags a; last_updated := last_updated a |}.
Definition with_series_title (v : string) (a : Anime) : Anime :=
  {| series_itemdb_id := series_itemdb_id a; series_title := v; series_synonyms := series_synonyms a;
     series_type := series_type a; series_episodes := series_episodes a; series_status := series_status a;
     series_date_begin := series_date_begin a; series_date_end := series_date_end a; image_url := image_url a;
     series_synopsis := series_synopsis a; my_id := my_id a; episodes := episodes a;
     status := status a; score := score a; downloaded_items := downloaded_items a;
     date_start := date_start a; date_finish := date_finish a; enable_reconsuming := enable_reconsuming a;
     rewatch_episode := rewatch_episode a; tags := tags a; last_updated := last_updated a |}.
Definition with_series_synonyms (v : list string) (a : Anime) : Anime :=
  {| series_itemdb_id := series_itemdb_id a; series_title := series_title a; series_synonyms := v;
     series_type := series_type a; series_episodes := series_episodes a; series_status := series_status a;
     series_date_begin := series_date_begin a; series_date_end := series_date_end a; image_url := image_url a;
     series_synopsis := series_synopsis a; my_id := my_id a; episodes := episodes a;
     status := status a; score := score a; downloaded_items := downloaded_items a;
     date_start := date_start a; date_finish := date_finish a; enable_reconsuming := enable_reconsuming a;
     rewatch_episode := rewatch_episode a; tags := tags a; last_updated := last_updated a |}.
Definition with_series_type (v : Z) (a : Anime) : Anime :=
  {| series_itemdb_id := series_itemdb_id a; series_title := series_title a; series_synonyms := series_synonyms a;
     series_type := v; series_episodes := series_episodes a; series_status := series_status a;
     series_date_begin := series_date_begin a; series_date_end := series_date_end a; image_url := image_url a;
     series_synopsis := series_synopsis a; my_id := my_id a; episodes := episodes a;
     status := status a; score := score a; downloaded_items := downloaded_items a;
     date_start := date_start a; date_finish := date_finish a; enable_reconsuming := enable_reconsuming a;
     rewatch_episode := rewatch_episode a; tags := tags a; last_updated := last_updated a |}.
Definition with_series_episodes (v : Z) (a : Anime) : Anime :=
  {| series_itemdb_id := series_itemdb_id a; series_title := series_title a; series_synonyms := series_synonyms a;
     series_type := series_type a; series_episodes := v; series_status := series_status a;
     series_date_begin := series_date_begin a; series_date_end := series_date_end a; image_url := image_url a;
     series_synopsis := series_synopsis a; my_id := my_id a; episodes := episodes a;
     status := status a; score := score a; downloaded_items := downloaded_items a;
     date_start := date_start a; date_finish := date_finish a; enable_reconsuming := enable_reconsuming a;
     rewatch_episode := rewatch_episode a; tags := tags a; last_updated := last_updated a |}.
Definition with_series_status (v : Z) (a : Anime) : Anime :=
  {| series_itemdb_id := series_itemdb_id a; series_title := series_title a; series_synonyms := series_synonyms a;
     series_type := series_type a; series_episodes := series_episodes a; series_status := v;
     series_date_begin := series_date_begin a; series_date_end := series_date_end a; image_url := image_url a;
     series_synopsis := series_synopsis a; my_id := my_id a; episodes := episodes a;
     status := status a; score := score a; downloaded_items := downloaded_items a;
     date_start := date_start a; date_finish := date_finish a; enable_reconsuming := enable_reconsuming a;
     rewatch_episode := rewatch_episode a; tags := tags a; last_updated := last_updated a |}.
Definition with_series_date_begin (v : string) (a : Anime) : Anime :=
  {| series_itemdb_id := series_itemdb_id a; series_title := series_title a; series_synonyms := series_synonyms a;
     series_type := series_type a; series_episodes := series_episodes a; series_status := series_status a;
     series_date_begin := v; series_date_end := series_date_end a; image_url := image_url a;
     series_synopsis := series_synopsis a; my_id := my_id a; episodes := episodes a;
     status := status a; score := score a; downloaded_items := downloaded_items a;
     date_start := date_start a; date_finish := date_finish a; enable_reconsuming := enable_reconsuming a;
     rewatch_episode := rewatch_episode a; tags := tags a; last_updated := last_updated a |}.
Definition with_series_date_end (v : string) (a : Anime) : Anime :=
  {| series_itemdb_id := series_itemdb_id a; series_title := series_title a; series_synonyms := series_synonyms a;
     series_type := series_type a; series_episodes := series_episodes a; series_status := series_status a;
     series_date_begin := series_date_begin a; series_date_end := v; image_url := image_url a;
     series_synopsis := series_synopsis a; my_id := my_id a; episodes := episodes a;
     status := status a; score := score a; downloaded_items := downloaded_items a;
     date_start := date_start a; date_finish := date_finish a; enable_reconsuming := enable_reconsuming a;
     rewatch_episode := rewatch_episode a; tags := tags a; last_updated := last_updated a |}.
Definition with_image_url (v : string) (a : Anime) : Anime :=
  {| series_itemdb_id := series_itemdb_id a; series_title := series_title a; series_synonyms := series_synonyms a;
     series_type := series_type a; series_episodes := series_episodes a; series_status := series_status a;
     series_date_begin := series_date_begin a; series_date_end := series_date_end a; image_url := v;
     series_synopsis := series_synopsis a; my_id := my_id a; episodes := episodes a;
     status := status a; score := score a; downloaded_items := downloaded_items a;
     date_start := date_start a; date_finish := date_finish a; enable_reconsuming := enable_reconsuming a;
     rewatch_episode := rewatch_episode a; tags := tags a; last_updated := last_updated a |}.
Definition with_series_synopsis (v : string) (a : Anime) : Anime :=
  {| series_itemdb_id := series_itemdb_id a; series_title := series_title a; series_synonyms := series_synonyms a;
     series_type := series_type a; series_episodes := series_episodes a; series_status := series_status a;
     series_date_begin := series_date_begin a; series_date_end := series_date_end a; image_url := image_url a;
     series_synopsis := v; my_id := my_id a; episodes := episodes a;
     status := status a; score := score a; downloaded_items := downloaded_items a;
     date_start := date_start a; date_finish := date_finish a; enable_reconsuming := enable_reconsuming a;
     rewatch_episode := rewatch_episode a; tags := tags a; last_updated := last_updated a |}.
Definition with_my_id (v : Z) (a : Anime) : Anime :=
  {| series_itemdb_id := series_itemdb_id a; series_title := series_title a; series_synonyms := series_synonyms a;
     series_type := series_type a; series_episodes := series_episodes a; series_status := series_status a;
     series_date_begin := series_date_begin a; series_date_end := series_date_end a; image_url := image_url a;
     series_synopsis := series_synopsis a; my_id := v; episodes := episodes a;
     status := status a; score := score a; downloaded_items := downloaded_items a;
     date_start := date_start a; date_finish := date_finish a; enable_reconsuming := enable_reconsuming a;
     rewatch_episode := rewatch_episode a; tags := tags a; last_updated := last_updated a |}.
Definition with_episodes (v : Z) (a : Anime) : Anime :=
  {| series_itemdb_id := series_itemdb_id a; series_title := series_title a; series_synonyms := series_synonyms a;
     series_type := series_type a; series_episodes := series_episodes a; series_status := series_status a;
     series_date_begin := series_date_begin a; series_date_end := series_date_end a; image_url := image_url a;
     series_synopsis := series_synopsis a; my_id := my_id a; episodes := v;
     status := status a; score := score a; downloaded_items := downloaded_items a;
     date_start := date_start a; date_finish := date_finish a; enable_reconsuming := enable_reconsuming a;
     rewatch_episode := rewatch_episode a; tags := tags a; last_updated := last_updated a |}.
Definition with_status (v : Z) (a : Anime) : Anime :=
  {| series_itemdb_id := series_itemdb_id a; series_title := series_title a; series_synonyms := series_synonyms a;
     series_type := series_type a; series_episodes := series_episodes a; series_status := series_status a;
     series_date_begin := series_date_begin a; series_date_end := series_date_end a; image_url := image_url a;
     series_synopsis := series_synopsis a; my_id := my_id a; episodes := episodes a;
     status := v; score := score a; downloaded_items := downloaded_items a;
     date_start := date_start a; date_finish := date_finish a; enable_reconsuming := enable_reconsuming a;
     rewatch_episode := rewatch_episode a; tags := tags a; last_updated := last_updated a |}.
Definition with_score (v : Z) (a : Anime) : Anime :=
  {| series_itemdb_id := series_itemdb_id a; series_title := series_title a; series_synonyms := series_synonyms a;
     series_type := series_type a; series_episodes := series_episodes a; series_status := series_status a;
     series_date_begin := series_date_begin a; series_date_end := series_date_end a; image_url := image_url a;
     series_synopsis := series_synopsis a; my_id := my_id a; episodes := episodes a;
     status := status a; score := v; downloaded_items := downloaded_items a;
     date_start := date_start a; date_finish := date_finish a; enable_reconsuming := enable_reconsuming a;
     rewatch_episode := rewatch_episode a; tags := tags a; last_updated := last_updated a |}.
Definition with_downloaded_items (v : Z) (a : Anime) : Anime :=
  {| series_itemdb_id := series_itemdb_id a; series_title := series_title a; series_synonyms := series_synonyms a;
     series_type := series_type a; series_episodes := series_episodes a; series_status := series_status a;
     series_date_begin := series_date_begin a; series_date_end := series_date_end a; image_url := image_url a;
     series_synopsis := series_synopsis a; my_id := my_id a; episodes := episodes a;
     status := status a; score := score a; downloaded_items := v;
     date_start := date_start a; date_finish := date_finish a; enable_reconsuming := enable_reconsuming a;
     rewatch_episode := rewatch_episode a; tags := tags a; last_updated := last_updated a |}.
Definition with_date_start (v : string) (a : Anime) : Anime :=
  {| series_itemdb_id := series_itemdb_id a; series_title := series_title a; series_synonyms := series_synonyms a;
     series_type := series_type a; series_episodes := series_episodes a; series_status := series_status a;
     series_date_begin := series_date_begin a; series_date_end := series_date_end a; image_url := image_url a;
     series_synopsis := series_synopsis a; my_id := my_id a; episodes := episodes a;
     status := status a; score := score a; downloaded_items := downloaded_items a;
     date_start := v; date_finish := date_finish a; enable_reconsuming := enable_reconsuming a;
     rewatch_episode := rewatch_episode a; tags := tags a; last_updated := last_updated a |}.
Definition with_date_finish (v : string) (a : Anime) : Anime :=
  {| series_itemdb_id := series_itemdb_id a; series_title := series_title a; series_synonyms := series_synonyms a;
     series_type := series_type a; series_episodes := series_episodes a; series_status := series_status a;
     series_date_begin := series_date_begin a; series_date_end := series_date_end a; image_url := image_url a;
     series_synopsis := series_synopsis a; my_id := my_id a; episodes := episodes a;
     status := status a; score := score a; downloaded_items := downloaded_items a;
     date_start := date_start a; date_finish := v; enable_reconsuming := enable_reconsuming a;
     rewatch_episode := rewatch_episode a; tags := tags a; last_updated := last_updated a |}.
Definition with_enable_reconsuming (v : bool) (a : Anime) : Anime :=
  {| series_itemdb_id := series_itemdb_id a; series_title := series_title a; series_synonyms := series_synonyms a;
     series_type := series_type a; series_episodes := series_episodes a; series_status := series_status a;
     series_date_begin := series_date_begin a; series_date_end := series_date_end a; image_url := image_url a;
     series_synopsis := series_synopsis a; my_id := my_id a; episodes := episodes a;
     status := status a; score := score a; downloaded_items := downloaded_items a;
     date_start := date_start a; date_finish := date_finish a; enable_reconsuming := v;
     rewatch_episode := rewatch_episode a; tags := tags a; last_updated := last_updated a |}.
Definition with_rewatch_episode (v : Z) (a : Anime) : Anime :=
  {| series_itemdb_id := series_itemdb_id a; series_title := series_title a; series_synonyms := series_synonyms a;
     series_type := series_type a; series_episodes := series_episodes a; series_status := series_status a;
     series_date_begin := series_date_begin a; series_date_end := series_date_end a; image_url := image_url a;
     series_synopsis := series_synopsis a; my_id := my_id a; episodes := episodes a;
     status := status a; score := score a; downloaded_items := downloaded_items a;
     date_start := date_start a; date_finish := date_finish a; enable_reconsuming := enable_reconsuming a;
     rewatch_episode := v; tags := tags a; last_updated := last_updated a |}.
Definition with_tags (v : list string) (a : Anime) : Anime :=
  {| series_itemdb_id := series_itemdb_id a; series_title := series_title a; series_synonyms := series_synonyms a;
     series_type := series_type a; series_episodes := series_episodes a; series_status := series_status a;
     series_date_begin := series_date_begin a; series_date_end := series_date_end a; image_url := image_url a;
     series_synopsis := series_synopsis a; my_id := my_id a; episodes := episodes a;
     status := status a; score := score a; downloaded_items := downloaded_items a;
     date_start := date_start a; date_finish := date_finish a; enable_reconsuming := enable_reconsuming a;
     rewatch_episode := rewatch_episode a; tags := v; last_updated := last_updated a |}.
Definition with_last_updated (v : string) (a : Anime) : Anime :=
  {| series_itemdb_id := series_itemdb_id a; series_title := series_title a; series_synonyms := series_synonyms a;
     series_type := series_type a; series_episodes := series_episodes a; series_status := series_status a;
     series_date_begin := series_date_begin a; series_date_end := series_date_end a; image_url := image_url a;
     series_synopsis := series_synopsis a; my_id := my_id a; episodes := episodes a;
     status := status a; score := score a; downloaded_items := downloaded_items a;
     date_start := date_start a; date_finish := date_finish a; enable_reconsuming := enable_reconsuming a;
     rewatch_episode := rewatch_episode a; tags := tags a; last_updated := v |}.

(** The setters of [MAL::Anime] that [initialize_member_map] binds.  Their
    bodies are in [anime.hpp]/[anime.cpp], outside the sources: the
    deserializer is parameterised by them.  Each takes the record and the
    text of the element by value and yields the updated record. *)
Record AnimeSetters : Type := {
  set_series_itemdb_id   : Anime -> string -> Anime;
  set_series_title       : Anime -> string -> Anime;
  set_series_date_begin  : Anime -> string -> Anime;
  set_series_date_end    : Anime -> string -> Anime;
  set_image_url          : Anime -> string -> Anime;
  set_series_synonyms    : Anime -> string -> Anime;
  set_series_synopsis    : Anime -> string -> Anime;
  set_series_type        : Anime -> string -> Anime;
  set_series_status      : Anime -> string -> Anime;
  set_series_episodes    : Anime -> string -> Anime;
  set_tags               : Anime -> string -> Anime;
  set_date_start         : Anime -> string -> Anime;
  set_date_finish        : Anime -> string -> Anime;
  set_id                 : Anime -> string -> Anime;
  set_last_updated       : Anime -> string -> Anime;
  set_score              : Anime -> string -> Anime;
  set_enable_reconsuming : Anime -> string -> Anime;
  set_status             : Anime -> string -> Anime;
  set_episodes           : Anime -> string -> Anime;
  set_rewatch_episode    : Anime -> string -> Anime
}.

(** Decimal reading of a numeral, as [std::stoll] does on a plain numeral;
    [None] where no conversion can be performed. *)
Definition stoll (s : string) : option Z :=
  option_map Z.of_int (NilZero.int_of_string s).

Definition set_number (upd : Z -> Anime -> Anime) (a : Anime) (s : string) : Anime :=
  match stoll s with
  | Some z => upd z a
  | None => a
  end.

(** Modelled from the spec: the bodies of the setters ([anime.hpp]) are not
    among the sources.  Following the spec's data model, a text field stores
    the text it is given, a numeric field stores the decimal value of the
    text (and is left as it is when the text is no numeral), the
    re-consumption flag is set by a non-zero numeral, and a list field holds
    the text as its only entry. *)
Definition spec_setters : AnimeSetters := {|
  set_series_itemdb_id   := set_number with_series_itemdb_id;
  set_series_title       := fun a s => with_series_title s a;
  set_series_date_begin  := fun a s => with_series_date_begin s a;
  set_series_date_end    := fun a s => with_series_date_end s a;
  set_image_url          := fun a s => with_image_url s a;
  set_series_synonyms    := fun a s => with_series_synonyms [s] a;
  set_series_synopsis    := fun a s => with_series_synopsis s a;
  set_series_type        := set_number with_series_type;
  set_series_status      := set_number with_series_status;
  set_series_episodes    := set_number with_series_episodes;
  set_tags               := fun a s => with_tags [s] a;
  set_date_start         := fun a s => with_date_start s a;
  set_date_finish        := fun a s => with_date_finish s a;
  set_id                 := set_number with_my_id;
  set_last_updated       := fun a s => with_last_updated s a;
  set_score              := set_number with_score;
  set_enable_reconsuming := set_number (fun z => with_enable_reconsuming (negb (z =? 0)));
  set_status             := set_number with_status;
  set_episodes           := set_number with_episodes;
  set_rewatch_episode    := set_number with_rewatch_episode
|}.

(** ** The name table and the setter table *)

(** [initialize_field_map], entry by entry. *)
Definition initialize_field_map : list (string * FIELDS) :=
  [ ("my_id",                    MYID);
    ("series_animedb_id",        ANIMEDBID);
    ("id",                       ANIMEDBID);
    ("series_title",             SERIESTITLE);
    ("title",                    SERIESTITLE);
    ("series_type",              SERIESTYPE);
    ("type",                     SERIESTYPE);
    ("series_episodes",          SERIESEPISODES);
    ("episodes",                 SERIESEPISODES);
    ("series_status",            SERIESSTATUS);
    ("status",                   SERIESSTATUS);
    ("series_start",             SERIESDATEBEGIN);
    ("start_date",               SERIESDATEBEGIN);
    ("series_end",               SERIESDATEEND);
    ("end_date",                 SERIESDATEEND);
    ("series_image",             SERIESIMAGEURL);
    ("image",                    SERIESIMAGEURL);
    ("series_synonyms",          SERIESSYNONYMS);
    ("synonyms",                 SERIESSYNONYMS);
    ("my_score",                 MYSCORE);
    ("score",                    MYSCORE);
    ("english",                  SERIESSYNONYMS);
    ("my_watched_episodes",      MYWATCHEDEPISODES);
    ("my_start_date",            MYSTARTDATE);
    ("my_finish_date",           MYFINISHDATE);
    ("my_status",                MYSTATUS);
    ("my_rewatching",            MYREWATCHING);
    ("my_rewatching_ep",         MYREWATCHINGEP);
    ("my_last_updated",          MYLASTUPDATED);
    ("my_tags",                  MYTAGS);
    ("user_id",                  USERID);
    ("synopsis",                 SYNOPSIS);
    ("entry",                    ENTRY);
    ("anime",                    ANIME);
    ("#text",                    FIELDTEXT);
    ("user_name",                FIELDNONE);
    ("user_watching",            FIELDNONE);
    ("user_completed",           FIELDNONE);
    ("user_onhold",              FIELDNONE);
    ("user_dropped",             FIELDNONE);
    ("user_plantowatch",         FIELDNONE);
    ("user_days_spent_watching", FIELDNONE);
    ("myinfo",                   FIELDNONE);
    ("myanimelist",              FIELDNONE) ].

(** [field_map.find(name)]: [None] stands for [field_map.end()]. *)
Definition field_map_find (name : string) : option FIELDS :=
  option_map snd (find (fun e => String.eqb (fst e) name) initialize_field_map).

(** [initialize_member_map], entry by entry. *)
Definition initialize_member_map (m : AnimeSetters)
  : list (FIELDS * (Anime -> string -> Anime)) :=
  [ (ANIMEDBID,         set_series_itemdb_id m);
    (SERIESTITLE,       set_series_title m);
    (SERIESDATEBEGIN,   set_series_date_begin m);
    (SERIESDATEEND,     set_series_date_end m);
    (SERIESIMAGEURL,    set_image_url m);
    (SERIESSYNONYMS,    set_series_synonyms m);
    (SYNOPSIS,          set_series_synopsis m);

    (SERIESTYPE,        set_series_type m);
    (SERIESSTATUS,      set_series_status m);
    (SERIESEPISODES,    set_series_episodes m);

    (MYTAGS,            set_tags m);
    (MYSTARTDATE,       set_date_start m);
    (MYFINISHDATE,      set_date_finish m);
    (MYID,              set_id m);
    (MYLASTUPDATED,     set_last_updated m);
    (MYSCORE,           set_score m);
    (MYREWATCHING,      set_enable_reconsuming m);

    (MYSTATUS,          set_status m);
    (MYWATCHEDEPISODES, set_episodes m);
    (MYREWATCHINGEP,    set_rewatch_episode m) ].

(** [member_map.find(f)]. *)
Definition member_map_find (m : AnimeSetters) (f : FIELDS)
  : option (Anime -> string -> Anime) :=
  option_map snd (find (fun e => FIELDS_eqb (fst e) f) (initialize_member_map m)).

(** ** The pull reader *)

(** [xmlReaderTypes] of libxml2, with the integer each enumerator stands
    for. *)
Inductive xmlReaderTypes : Set :=
| XML_READER_TYPE_NONE
| XML_READER_TYPE_ELEMENT
| XML_READER_TYPE_ATTRIBUTE
| XML_READER_TYPE_TEXT
| XML_READER_TYPE_CDATA
| XML_READER_TYPE_ENTITY_REFERENCE
| XML_READER_TYPE_ENTITY
| XML_READER_TYPE_PROCESSING_INSTRUCTION
| XML_READER_TYPE_COMMENT
| XML_READER_TYPE_DOCUMENT
| XML_READER_TYPE_DOCUMENT_TYPE
| XML_READER_TYPE_DOCUMENT_FRAGMENT
| XML_READER_TYPE_NOTATION
| XML_READER_TYPE_WHITESPACE
| XML_READER_TYPE_SIGNIFICANT_WHITESPACE
| XML_READER_TYPE_END_ELEMENT
| XML_READER_TYPE_END_ENTITY
| XML_READER_TYPE_XML_DECLARATION.

Definition xmlReaderTypes_value (t : xmlReaderTypes) : Z :=
  match t with
  | XML_READER_TYPE_NONE => 0
  | XML_READER_TYPE_ELEMENT => 1
  | XML_READER_TYPE_ATTRIBUTE => 2
  | XML_READER_TYPE_TEXT => 3
  | XML_READER_TYPE_CDATA => 4
  | XML_READER_TYPE_ENTITY_REFERENCE => 5
  | XML_READER_TYPE_ENTITY => 6
  | XML_READER_TYPE_PROCESSING_INSTRUCTION => 7
  | XML_READER_TYPE_COMMENT => 8
  | XML_READER_TYPE_DOCUMENT => 9
  | XML_READER_TYPE_DOCUMENT_TYPE => 10
  | XML_READER_TYPE_DOCUMENT_FRAGMENT => 11
  | XML_READER_TYPE_NOTATION => 12
  | XML_READER_TYPE_WHITESPACE => 13
  | XML_READER_TYPE_SIGNIFICANT_WHITESPACE => 14
  | XML_READER_TYPE_END_ELEMENT => 15
  | XML_READER_TYPE_END_ENTITY => 16
  | XML_READER_TYPE_XML_DECLARATION => 17
  end.

(** What the reader exposes of the node it stands on: the results of
    [xmlTextReaderConstName], [xmlTextReaderConstValue] (each possibly the
    null pointer) and [xmlTextReaderNodeType]. *)
Record xml_node : Type := {
  ConstName  : option string;
  ConstValue : option string;
  NodeType   : xmlReaderTypes
}.

(** A reader over a document: the nodes on which the successive calls of
    [xmlTextReaderRead] that return 1 stand, and the value of the first call
    that does not return 1 (0 at the end of the document, -1 on a parse
    error). *)
Record xmlTextReader : Type := {
  reader_nodes : list xml_node;
  reader_last  : Z
}.

(** [xmlchar_to_str]. *)
Definition xmlchar_to_str (str : option string) : string :=
  match str with
  | Some s => s
  | None => EmptyString
  end.

(** ** [AnimeSerializer::deserialize] *)

(** The local variables of [deserialize] that live across the iterations of
    its loop, the list [res] it returns, and the lines written to
    [std::cerr]. *)
Record loop_state : Type := {
  anime             : Anime;
  field             : FIELDS;
  prev_field        : FIELDS;
  entry_after_anime : bool;
  seen_anime        : bool;
  seen_entry        : bool;
  res               : list Anime;
  cerr              : list string
}.

Definition initial_state : loop_state := {|
  anime             := Anime_new;
  field             := FIELDNONE;
  prev_field        := FIELDNONE;
  entry_after_anime := false;
  seen_anime        := false;
  seen_entry        := false;
  res               := [];
  cerr              := []
|}.

(** [std::cerr << line << std::endl]. *)
Definition print (line : string) (st : loop_state) : loop_state :=
  {| anime := anime st; field := field st; prev_field := prev_field st;
     entry_after_anime := entry_after_anime st;
     seen_anime := seen_anime st; seen_entry := seen_entry st;
     res := res st; cerr := cerr st ++ [line] |}.

(** The field whose end-element finalizes a record, as the test of lines
    182-183 selects it: [ENTRY] once [entry_after_anime] holds, [ANIME]
    before. *)
Definition wrapper_field (st : loop_state) : FIELDS :=
  if entry_after_anime st then ENTRY else ANIME.

Section Deserialize.

(** [TextUtility::parse_html_entities] ([text_util.hpp], outside the
    sources) rewrites the text in place; here it maps the text to the
    cleaned text. *)
Variable parse_html_entities : string -> string.

(** The setters bound by the setter table. *)
Variable setters : AnimeSetters.

(** Lines 166-173: the name is looked up and, when found, shifts [field]
    into [prev_field]; when not found a line is printed and both stay. *)
Definition resolve_name (name : string) (st : loop_state) : loop_state :=
  match field_map_find name with
  | Some f =>
      {| anime := anime st; field := f; prev_field := field st;
         entry_after_anime := entry_after_anime st;
         seen_anime := seen_anime st; seen_entry := seen_entry st;
         res := res st; cerr := cerr st |}
  | None => print ("Unexpected field " ++ name) st
  end.

(** [case XML_READER_TYPE_ELEMENT] (lines 176-180). *)
Definition on_element (st : loop_state) : loop_state :=
  {| anime := anime st; field := field st; prev_field := prev_field st;
     entry_after_anime :=
       entry_after_anime st
       || (FIELDS_eqb (field st) ENTRY && seen_anime st && negb (seen_entry st));
     seen_anime := seen_anime st || FIELDS_eqb (field st) ANIME;
     seen_entry := seen_entry st || FIELDS_eqb (field st) ENTRY;
     res := res st; cerr := cerr st |}.

(** [case XML_READER_TYPE_END_ELEMENT] (lines 181-188). *)
Definition on_end_element (st : loop_state) : loop_state :=
  let finalize :=
    (entry_after_anime st && FIELDS_eqb (field st) ENTRY)
    || (negb (entry_after_anime st) && FIELDS_eqb (field st) ANIME) in
  {| anime := if finalize then Anime_new else anime st;
     field := FIELDNONE; prev_field := prev_field st;
     entry_after_anime := entry_after_anime st;
     seen_anime := seen_anime st; seen_entry := seen_entry st;
     res := if finalize then res st ++ [anime st] else res st;
     cerr := cerr st |}.

(** [case XML_READER_TYPE_TEXT] (lines 189-202). *)
Definition on_text (name value : string) (st : loop_state) : loop_state :=
  let st1 := if FIELDS_eqb (field st) FIELDTEXT then st
             else print "There's a problem!" st in
  if (0 <? String.length value)%nat then
    match member_map_find setters (prev_field st1) with
    | Some setter =>
        {| anime := setter (anime st1) value;
           field := field st1; prev_field := prev_field st1;
           entry_after_anime := entry_after_anime st1;
           seen_anime := seen_anime st1; seen_entry := seen_entry st1;
           res := res st1; cerr := cerr st1 |}
    | None => st1
    end
  else print ("Error: Unexpected " ++ name ++ " = " ++ value) st1.

(** The body of the loop (lines 162-211) on the node the reader stands
    on. *)
Definition process_node (st : loop_state) (node : xml_node) : loop_state :=
  let name := xmlchar_to_str (ConstName node) in
  let value := parse_html_entities (xmlchar_to_str (ConstValue node)) in
  if (0 <? String.length name)%nat then
    let st1 := resolve_name name st in
    match NodeType node with
    | XML_READER_TYPE_ELEMENT => on_element st1
    | XML_READER_TYPE_END_ELEMENT => on_end_element st1
    | XML_READER_TYPE_TEXT => on_text name value st1
    | XML_READER_TYPE_SIGNIFICANT_WHITESPACE => st1
    | other =>
        print ("Warning: Unexpected node type "
               ++ to_string (xmlReaderTypes_value other)
               ++ " : " ++ name ++ "=" ++ value) st1
    end
  else st.

(** The loop (lines 160-212): one iteration for each node read. *)
Definition read_loop (st : loop_state) (nodes : list xml_node) : loop_state :=
  fold_left process_node nodes st.

(** Lines 153-218: the loop from the initial values of the locals, the
    check of the last value of [ret], and the returned list (with the
    lines printed). *)
Definition deserialize_reader (reader : xmlTextReader) : list Anime * list string :=
  let st := read_loop initial_state (reader_nodes reader) in
  let st' := if reader_last reader =? 0 then st
             else print ("Error: Failed to parse! ret = "
                         ++ to_string (reader_last reader)) st in
  (res st', cerr st').

(** [xmlReaderForMemory] of libxml2 on the text of the document, with the
    options the source passes; [None] stands for the null pointer. *)
Variable xmlReaderForMemory : string -> option xmlTextReader.

(** [AnimeSerializer::deserialize] (lines 140-219). *)
Definition deserialize (xml : string) : list Anime * list string :=
  match xmlReaderForMemory xml with
  | None =>
      ([], ["Error: Couldn't create XML reader"; "XML follows: " ++ xml])
  | Some reader => deserialize_reader reader
  end.

End Deserialize.

(** ** [AnimeSerializer::serialize] *)

(** The state of a [Glib::Date] as [serialize] uses it: whether the date is
    valid, and its day, month and year. *)
Record Glib_Date : Type := {
  date_valid : bool;
  date_day   : Z;
  date_month : Z;
  date_year  : Z
}.

(** [Glib::Date()]: the cleared, invalid date. *)
Definition Glib_Date_new : Glib_Date :=
  {| date_valid := false; date_day := 0; date_month := 0; date_year := 0 |}.

(** [Glib::Date::valid]. *)
Definition valid (d : Glib_Date) : bool := date_valid d.

(** A number of the calendar on two digits, as [%m] and [%d] print it. *)
Definition two_digits (z : Z) : string :=
  if z <? 10 then "0" ++ to_string z else to_string z.

(** [Glib::Date::format_string] on the conversions the source uses: [%m]
    is the month on two digits, [%d] the day on two digits, [%Y] the year
    in decimal; any other character is copied. *)
Fixpoint format_string (d : Glib_Date) (format : string) : string :=
  match format with
  | String "%" (String "m" rest) => two_digits (date_month d) ++ format_string d rest
  | String "%" (String "d" rest) => two_digits (date_day d) ++ format_string d rest
  | String "%" (String "Y" rest) => to_string (date_year d) ++ format_string d rest
  | String c rest => String c (format_string d rest)
  | EmptyString => EmptyString
  end.




(** The double quote character, and the literal that opens the output. *)
Definition dquote : string := String (ascii_of_nat 34) EmptyString.

Definition xml_declaration_entry : string :=
  "<?xml version=" ++ dquote ++ "1.0" ++ dquote
  ++ " encoding=" ++ dquote ++ "UTF-8" ++ dquote ++ "?><entry>".

(** The loop over [anime.tags] (lines 279-287). *)
Fixpoint join_tags (was_first : bool) (tags : list string) : string :=
  match tags with
  | [] => EmptyString
  | t :: rest =>
      (if negb was_first then "; " else EmptyString) ++ t ++ join_tags false rest
  end.

Section Serialize.

(** [Glib::Date::set_parse] (glibmm, outside the sources): the date a
    text is parsed to, invalid when the text is not understood. *)
Variable set_parse : Glib_Date -> string -> Glib_Date.

(** Lines 250-254 and 257-261: what is appended between the opening and
    the closing tag of a date element. *)
Definition date_text (stored : string) : string :=
  let date := set_parse Glib_Date_new stored in
  if valid date then format_string date "%m%d%Y" else EmptyString.

(** [AnimeSerializer::serialize] (lines 221-294), one line for each
    [out +=]. *)
Definition serialize (anime : Anime) : string :=
  xml_declaration_entry
  ++ "<episode>"
  ++ to_string (episodes anime)
  ++ "</episode>"
  ++ "<status>"
  ++ to_string (status anime)
  ++ "</status>"
  ++ "<score>"
  ++ to_string (score anime)
  ++ "</score>"
  ++ "<downloaded_episodes>"
  ++ to_string (downloaded_items anime)
  ++ "</downloaded_episodes>"
  ++ "<storage_type>"
  ++ "</storage_type>"
  ++ "<storage_value>"
  ++ "</storage_value>"
  ++ "<times_rewatched>"
  ++ "</times_rewatched>"
  ++ "<rewatch_value>"
  ++ "</rewatch_value>"
  ++ "<date_start>"
  ++ date_text (date_start anime)
  ++ "</date_start>"
  ++ "<date_finish>"
  ++ date_text (date_finish anime)
  ++ "</date_finish>"
  ++ "<priority>"
  ++ "</priority>"
  ++ "<enable_discussion>"
  ++ "</enable_discussion>"
  ++ "<enable_rewatching>"
  ++ (if enable_reconsuming anime then "1" else "0")
  ++ "</enable_rewatching>"
  ++ "<comments>"
  ++ "</comments>"
  ++ "<fansub_group>"
  ++ "</fansub_group>"
  ++ "<tags>"
  ++ join_tags true (tags anime)
  ++ "</tags>"
  ++ "<rewatch_episode>"
  ++ to_string (rewatch_episode anime)
  ++ "</rewatch_episode>"
  ++ "</entry>".

(** The elements of the output in order, each with its name and the text
    between its tags. *)
Definition entry_elements (anime : Anime) : list (string * string) :=
  [ ("episode",             to_string (episodes anime));
    ("status",              to_string (status anime));
    ("score",               to_string (score anime));
    ("downloaded_episodes", to_string (downloaded_items anime));
    ("storage_type",        EmptyString);
    ("storage_value",       EmptyString);
    ("times_rewatched",     EmptyString);
    ("rewatch_value",       EmptyString);
    ("date_start",          date_text (date_start anime));
    ("date_finish",         date_text (date_finish anime));
    ("priority",            EmptyString);
    ("enable_discussion",   EmptyString);
    ("enable_rewatching",   if enable_reconsuming anime then "1" else "0");
    ("comments",            EmptyString);
    ("fansub_group",        EmptyString);
    ("tags",                join_tags true (tags anime));
    ("rewatch_episode",     to_string (rewatch_episode anime)) ].

End Serialize.

(** An element written out: opening tag, text, closing tag. *)
Definition element_text (e : string * string) : string :=
  "<" ++ fst e ++ ">" ++ snd e ++ "</" ++ fst e ++ ">".

Fixpoint elements_text (es : list (string * string)) : string :=
  match es with
  | [] => EmptyString
  | e :: rest => element_text e ++ elements_text rest
  end.

(** *** Reading an element back out of a text *)

Fixpoint starts_with (p s : string) : bool :=
  match p, s with
  | EmptyString, _ => true
  | String a p', String b s' => Ascii.eqb a b && starts_with p' s'
  | String _ _, EmptyString => false
  end.

Fixpoint skip (n : nat) (s : string) : string :=
  match n, s with
  | S n', String _ s' => skip n' s'
  | _, _ => s
  end.

(** What follows the first occurrence of [p] in [s]. *)
Fixpoint find_after (p s : string) : option string :=
  if starts_with p s then Some (skip (String.length p) s)
  else match s with
       | EmptyString => None
       | String _ s' => find_after p s'
       end.

(** What precedes the first occurrence of [p] in [s]. *)
Fixpoint find_before (p s : string) : option string :=
  if starts_with p s then Some EmptyString
  else match s with
       | EmptyString => None
       | String c s' => option_map (String c) (find_before p s')
       end.

(** The text of the first element called [name] in [xml]: what stands
    between the first [<name>] and the [</name>] that follows it. *)
Definition element_body (name xml : string) : option string :=
  match find_after ("<" ++ name ++ ">") xml with
  | Some rest => find_before ("</" ++ name ++ ">") rest
  | None => None
  end.

(** ** [MAL::MALItemComparator] *)

(** The sign of [std::string::compare]: unsigned characters compared left
    to right, then the lengths. *)
Definition string_compare (l r : string) : Z :=
  match String.compare l r with
  | Lt => -1
  | Eq => 0
  | Gt => 1
  end.

(** [std::string::substr(pos, len)] for a [pos] within the string. *)
Definition substr (s : string) (pos len : nat) : string := String.substring pos len s.

Section MALItemComparator.

(** The template parameter and the two members of it that the comparator
    reads. *)
Variable T : Type.
Variable T_series_date_begin : T -> string.
Variable T_series_title : T -> string.

(** [MALItemComparator<T>::operator()] (lines 180-187). *)
Definition MALItemComparator (l r : T) : bool :=
  let season := string_compare (substr (T_series_date_begin l) 0 7)
                               (substr (T_series_date_begin r) 0 7) in
  if season =? 0 then
    string_compare (T_series_title l) (T_series_title r) <? 0
  else
    season >? 0.

End MALItemComparator.

(** The comparator of [m_anime_list] and [m_anime_search_results]. *)
Definition anime_comparator : Anime -> Anime -> bool :=
  MALItemComparator Anime series_date_begin series_title.

(** ** [std::set] under a comparator *)

Section StdSet.

Variable T : Type.
Variable comp : T -> T -> bool.

(** Two keys are equivalent when neither orders before the other. *)
Definition equiv_key (a b : T) : bool := negb (comp a b) && negb (comp b a).

(** The elements of a [std::set<T, Compare>] in iteration order.
    [insert] puts the new element at its place, and does nothing when an
    equivalent element is present. *)
Fixpoint set_insert (x : T) (s : list T) : list T :=
  match s with
  | [] => [x]
  | y :: s' =>
      if comp x y then x :: y :: s'
      else if comp y x then y :: set_insert x s'
      else y :: s'
  end.

(** [erase(key)]: the element equivalent to the key, if any, is removed. *)
Fixpoint set_erase (x : T) (s : list T) : list T :=
  match s with
  | [] => []
  | y :: s' => if equiv_key x y then s' else y :: set_erase x s'
  end.

Inductive set_operation : Type :=
| op_insert (x : T)
| op_erase (x : T)
| op_clear.

Definition set_apply (s : list T) (op : set_operation) : list T :=
  match op with
  | op_insert x => set_insert x s
  | op_erase x => set_erase x s
  | op_clear => []
  end.

(** The set after a sequence of operations on the empty set. *)
Definition set_after (ops : list set_operation) : list T :=
  fold_left set_apply ops [].

End StdSet.

Arguments op_insert {T} x.
Arguments op_erase {T} x.
Arguments op_clear {T}.

(** ** The two shapes of a document, as node sequences *)

(** The nodes the reader reports for an opening tag, a closing tag and a
    run of text. *)
Definition StartElement (name : string) : xml_node :=
  {| ConstName := Some name; ConstValue := None;
     NodeType := XML_READER_TYPE_ELEMENT |}.

Definition EndElement (name : string) : xml_node :=
  {| ConstName := Some name; ConstValue := None;
     NodeType := XML_READER_TYPE_END_ELEMENT |}.

Definition TextNode (text : string) : xml_node :=
  {| ConstName := Some "#text"; ConstValue := Some text;
     NodeType := XML_READER_TYPE_TEXT |}.

(** The nodes of [<name>text</name>] for a text without markup: no text
    node is reported for an empty text. *)
Definition field_nodes (e : string * string) : list xml_node :=
  StartElement (fst e)
  :: (if (0 <? String.length (snd e))%nat then [TextNode (snd e)] else [])
  ++ [EndElement (fst e)].

(** An item: its fields inside the element [wrapper]. *)
Definition item_nodes (wrapper : string) (item : list (string * string))
  : list xml_node :=
  StartElement wrapper :: flat_map field_nodes item ++ [EndElement wrapper].

(** A document: the items, each inside [inner], all inside [outer]. *)
Definition document_nodes (outer inner : string)
           (items : list (list (string * string))) : list xml_node :=
  StartElement outer :: flat_map (item_nodes inner) items ++ [EndElement outer].

(** Search results: [<anime><entry>..</entry><entry>..</entry></anime>]. *)
Definition shape_A := document_nodes "anime" "entry".

(** List results: [<entry><anime>..</anime><anime>..</anime></entry>]. *)
Definition shape_B := document_nodes "entry" "anime".

(** The name of a field of an item: known to the name table and neither of
    the two wrappers. *)
Definition item_field_name (name : string) : bool :=
  match field_map_find name with
  | Some f => negb (FIELDS_eqb f ENTRY) && negb (FIELDS_eqb f ANIME)
  | None => false
  end.

Definition valid_item (item : list (string * string)) : bool :=
  forallb (fun e => item_field_name (fst e)) item.

(** What a field says, whatever the name it is written under: the tag its
    name stands for, and its text. *)
Definition logical_field (e : string * string) : option FIELDS * string :=
  (field_map_find (fst e), snd e).

Definition logical_items (items : list (list (string * string)))
  : list (list (option FIELDS * string)) :=
  map (map logical_field) items.

Section Records.

Variable parse_html_entities : string -> string.
Variable setters : AnimeSetters.

(** The record after one more field: the setter of the field's tag, if
    it has one, applied to the cleaned text, if there is any. *)
Definition store_field (a : Anime) (lf : option FIELDS * string) : Anime :=
  let value := parse_html_entities (snd lf) in
  if ((0 <? String.length (snd lf)) && (0 <? String.length value))%nat then
    match fst lf with
    | Some f =>
        match member_map_find setters f with
        | Some setter => setter a value
        | None => a
        end
    | None => a
    end
  else a.

(** The record an item stands for. *)
Definition item_record (item : list (option FIELDS * string)) : Anime :=
  fold_left store_field item Anime_new.

End Records.

(** ** Documents used as examples *)

(** A search result with two entries:
    [<anime><entry><id>5</id><title>Foo</title></entry>
            <entry><id>7</id><title>Bar</title></entry></anime>]. *)
Definition two_entries_nodes : list xml_node :=
  [ StartElement "anime";
      StartElement "entry";
        StartElement "id"; TextNode "5"; EndElement "id";
        StartElement "title"; TextNode "Foo"; EndElement "title";
      EndElement "entry";
      StartElement "entry";
        StartElement "id"; TextNode "7"; EndElement "id";
        StartElement "title"; TextNode "Bar"; EndElement "title";
      EndElement "entry";
    EndElement "anime" ].

(** A document cut off after an element of unknown name:
    [<anime><xyz_unknown></xyz_unknown>]. *)
Definition unclosed_nodes : list xml_node :=
  [ StartElement "anime";
      StartElement "xyz_unknown"; EndElement "xyz_unknown" ].

(** An element of unknown name with a text, inside a title:
    [<anime><entry><title><xyz_unknown>oops], the document up to the
    text... *)
Definition unknown_in_title_nodes : list xml_node :=
  [ StartElement "anime";
      StartElement "entry";
        StartElement "title";
          StartElement "xyz_unknown"; TextNode "oops" ].

(** ... and the whole of it:
    [<anime><entry><title><xyz_unknown>oops</xyz_unknown></title></entry></anime>]. *)
Definition unknown_in_title_document : list xml_node :=
  (unknown_in_title_nodes
   ++ [ EndElement "xyz_unknown"; EndElement "title";
        EndElement "entry"; EndElement "anime" ])%list.

(** ** Notions used in the properties *)

(** One state's shape flags below another's: a flag that is set in the
    first is set in the second. *)
Definition flags_le (st st' : loop_state) : Prop :=
  (entry_after_anime st = true -> entry_after_anime st' = true)
  /\ (seen_anime st = true -> seen_anime st' = true)
  /\ (seen_entry st = true -> seen_entry st' = true).

(** An end-element that is not the end of a wrapper: its name is known to
    the name table and stands for neither [ENTRY] nor [ANIME].  Nodes of
    another type, and nodes without a name, qualify too. *)
Definition not_wrapper_end (node : xml_node) : bool :=
  match NodeType node with
  | XML_READER_TYPE_END_ELEMENT =>
      match xmlchar_to_str (ConstName node) with
      | EmptyString => true
      | name =>
          match field_map_find name with
          | Some f => negb (FIELDS_eqb f ENTRY) && negb (FIELDS_eqb f ANIME)
          | None => false
          end
      end
  | _ => true
  end.

(** An end-element called [entry] or [anime] (or by another name that
    stands for one of the two wrappers). *)
Definition wrapper_end (node : xml_node) : bool :=
  match NodeType node with
  | XML_READER_TYPE_END_ELEMENT =>
      match field_map_find (xmlchar_to_str (ConstName node)) with
      | Some f => FIELDS_eqb f ENTRY || FIELDS_eqb f ANIME
      | None => false
      end
  | _ => false
  end.

(** What a state is to the rest of a well-formed document: the record
    being filled, the three flags and the records finalized. *)
Definition core (st : loop_state) : Anime * bool * bool * bool * list Anime :=
  (anime st, entry_after_anime st, seen_anime st, seen_entry st, res st).

(** The character [c] does not occur in [s]. *)
Fixpoint clear_of (c : ascii) (s : string) : bool :=
  match s with
  | EmptyString => true
  | String b s' => negb (Ascii.eqb c b) && clear_of c s'
  end.

(** [p] differs from [u] at a position that both have. *)
Fixpoint differs (p u : string) : bool :=
  match p, u with
  | String a p', String b u' => if Ascii.eqb a b then differs p' u' else true
  | _, _ => false
  end.

(** [p] starts nowhere in [s], whatever follows [s]. *)
Fixpoint never_starts (p s : string) : bool :=
  match s with
  | EmptyString => true
  | String _ s' => differs p s && never_starts p s'
  end.

(** A name that the name table does not know. *)
Definition unknown_name (name : string) : bool :=
  (0 <? String.length name)%nat
  && match field_map_find name with
     | Some _ => false
     | None => true
     end.

(** Every character of [s] passes [p]. *)
Fixpoint all_chars (p : ascii -> bool) (s : string) : bool :=
  match s with
  | EmptyString => true
  | String c s' => p c && all_chars p s'
  end.

(** A character that stands for itself in the text of an element: a
    printable ASCII character other than [<], [&] and [>]. *)
Definition plain_char (c : ascii) : bool :=
  (32 <=? N_of_ascii c)%N && (N_of_ascii c <=? 126)%N
  && negb (Ascii.eqb c "<") && negb (Ascii.eqb c "&") && negb (Ascii.eqb c ">").

(** A text that the reader reports as it stands: nothing (no node), or
    plain characters that are not all blanks (one text node). *)
Definition plain_body (s : string) : bool :=
  all_chars plain_char s
  && match s with
     | EmptyString => true
     | _ => negb (all_chars (fun c => Ascii.eqb c " ") s)
     end.

(** Tags that [serialize], which writes them as they are (lines 278-288),
    turns into the text of one element: each tag is made of plain
    characters, and the tags joined are a plain text. *)
Definition plain_tags (tags : list string) : bool :=
  forallb (all_chars plain_char) tags && plain_body (join_tags true tags).

(** The nodes the reader reports for the output of [serialize] put inside
    [<anime>], for a record with plain tags: the declaration is not a node,
    the elements are those of [entry_elements], each with its text as one
    text node.  For tags that hold markup the output is not the text of
    these elements (a tag may open or close elements of its own), and no
    node sequence is given. *)
Definition round_trip_nodes (set_parse : Glib_Date -> string -> Glib_Date)
           (r : Anime) : option (list xml_node) :=
  if plain_tags (tags r)
  then Some (shape_A [entry_elements set_parse r])
  else None.


(** The two wrappers in each other's place. *)
Definition mirror_field (f : FIELDS) : FIELDS :=
  match f with
  | ENTRY => ANIME
  | ANIME => ENTRY
  | other => other
  end.

(** Two nodes that are the same but for the wrappers' names: the same type
    and value, and names that are both absent, both unknown, or stand for
    tags that mirror each other. *)
Definition mirror_node (a b : xml_node) : Prop :=
  NodeType a = NodeType b
  /\ xmlchar_to_str (ConstValue a) = xmlchar_to_str (ConstValue b)
  /\ (0 <? String.length (xmlchar_to_str (ConstName a)))%nat
     = (0 <? String.length (xmlchar_to_str (ConstName b)))%nat
  /\ option_map mirror_field (field_map_find (xmlchar_to_str (ConstName a)))
     = field_map_find (xmlchar_to_str (ConstName b)).

(** A state of the loop inside [<anime><entry>] and a state inside
    [<entry><anime>] that agree on the record being filled and on the
    records finalized, with current fields that mirror each other. *)
Definition mirror_state (a b : loop_state) : Prop :=
  anime a = anime b /\ res a = res b
  /\ field a = mirror_field (field b)
  /\ prev_field a = mirror_field (prev_field b)
  /\ entry_after_anime a = true /\ entry_after_anime b = false
  /\ seen_anime a = true /\ seen_entry a = true
  /\ seen_anime b = true /\ seen_entry b = true.

(** ** Further notions: nodes, indentation, traversal *)

(** The test of line 166: the node bears a name. *)
Definition has_name (node : xml_node) : bool :=
  (0 <? String.length (xmlchar_to_str (ConstName node)))%nat.

(** The node bears a name of the name table. *)
Definition known_name (node : xml_node) : bool :=
  match field_map_find (xmlchar_to_str (ConstName node)) with
  | Some _ => true
  | None => false
  end.

(** A named end-element. *)
Definition named_end_element (node : xml_node) : bool :=
  has_name node
  && match NodeType node with
     | XML_READER_TYPE_END_ELEMENT => true
     | _ => false
     end.

(** The node the reader reports for white space between two tags. *)
Definition WhitespaceNode (text : string) : xml_node :=
  {| ConstName := Some "#text"; ConstValue := Some text;
     NodeType := XML_READER_TYPE_SIGNIFICANT_WHITESPACE |}.

Definition is_text_node (node : xml_node) : bool :=
  match NodeType node with
  | XML_READER_TYPE_TEXT => true
  | _ => false
  end.

(** [indented compact pretty]: [pretty] is [compact] with white space
    reported before some of its nodes other than texts, and possibly at its
    end. *)
Inductive indented : list xml_node -> list xml_node -> Prop :=
| indented_nil : indented [] []
| indented_end (text : string) : indented [] [WhitespaceNode text]
| indented_same (node : xml_node) (compact pretty : list xml_node) :
    indented compact pretty -> indented (node :: compact) (node :: pretty)
| indented_space (text : string) (node : xml_node) (compact pretty : list xml_node) :
    is_text_node node = false ->
    indented compact pretty ->
    indented (node :: compact) (WhitespaceNode text :: node :: pretty).

(** A node on which the loop prints nothing: a node without a name, or a
    node with a name of the table that is an element, an end-element, white
    space, or a text called [#text] that is not empty once cleaned. *)
Definition quiet_node (parse_html_entities : string -> string)
           (node : xml_node) : bool :=
  negb (has_name node)
  || match field_map_find (xmlchar_to_str (ConstName node)), NodeType node with
     | Some _, XML_READER_TYPE_ELEMENT => true
     | Some _, XML_READER_TYPE_END_ELEMENT => true
     | Some _, XML_READER_TYPE_SIGNIFICANT_WHITESPACE => true
     | Some f, XML_READER_TYPE_TEXT =>
         FIELDS_eqb f FIELDTEXT
         && (0 <? String.length
                    (parse_html_entities (xmlchar_to_str (ConstValue node))))%nat
     | _, _ => false
     end.

(** The number an element of a text holds, read as [stoll] reads it. *)
Definition element_number (name xml : string) : option Z :=
  match element_body name xml with
  | Some body => stoll body
  | None => None
  end.

(** ** [MAL::for_each_anime] and its siblings *)

Section ForEach.

(** The entries of the collection, the function object and what a call of
    it does to it. *)
Variable T : Type.
Variable UnaryFunction : Type.
Variable call : UnaryFunction -> T -> UnaryFunction.

(** [std::for_each(first, last, f)]: [f] is called on each element from
    [first] to [last] and returned. *)
Definition std_for_each (elements : list T) (f : UnaryFunction) : UnaryFunction :=
  fold_left call elements f.

End ForEach.

(** [MAL::for_each_anime] (lines 65-69) and
    [MAL::for_each_anime_search_result] (lines 77-81) on a collection of
    entries: the traversal of the set from [begin()] to [end()], which the
    lock guards from start to end. *)
Definition for_each_anime (UnaryFunction : Type)
           (call : UnaryFunction -> Anime -> UnaryFunction)
           (m_anime_list : list Anime) (f : UnaryFunction) : UnaryFunction :=
  std_for_each Anime UnaryFunction call m_anime_list f.

(** A function object that keeps the entries it is called on, first call
    first. *)
Definition record_call (seen : list Anime) (entry : Anime) : list Anime :=
  (seen ++ [entry])%list.

(** Two states that agree on everything but [prev_field] and the lines
    printed. *)
Definition same_but_prev (a b : loop_state) : Prop :=
  anime a = anime b /\ field a = field b
  /\ entry_after_anime a = entry_after_anime b
  /\ seen_anime a = seen_anime b /\ seen_entry a = seen_entry b
  /\ res a = res b.
(* ================================================================== *)
(** * Part II: properties *)
(* ================================================================== *)

(** ** The tables *)

Lemma FIELDS_eqb_eq (f g : FIELDS) : FIELDS_eqb f g = true <-> f = g.
Proof.
  unfold FIELDS_eqb. rewrite Z.eqb_eq. split.
  - destruct f, g; simpl; intro H; try reflexivity; discriminate H.
  - intros ->. reflexivity.
Qed.

Lemma FIELDS_eqb_refl (f : FIELDS) : FIELDS_eqb f f = true.
Proof. apply FIELDS_eqb_eq. reflexivity. Qed.

Lemma FIELDS_eqb_neq (f g : FIELDS) : FIELDS_eqb f g = false <-> f <> g.
Proof.
  rewrite <- FIELDS_eqb_eq. destruct (FIELDS_eqb f g); split; congruence.
Qed.

(** The two wrappers, the text tag and the ignore tag have no setter. *)
Lemma member_map_find_wrappers (m : AnimeSetters) :
  member_map_find m ENTRY = None /\ member_map_find m ANIME = None
  /\ member_map_find m FIELDTEXT = None /\ member_map_find m FIELDNONE = None.
Proof. repeat split; reflexivity. Qed.

(** A name the table knows is not empty. *)
Lemma field_map_find_nonempty (name : string) (f : FIELDS) :
  field_map_find name = Some f -> (0 <? String.length name)%nat = true.
Proof.
  destruct name as [|c name]; [discriminate | reflexivity].
Qed.

(** ** The loop *)

Section LoopFacts.

Variable parse_html_entities : string -> string.
Variable setters : AnimeSetters.

Local Abbreviation process := (process_node parse_html_entities setters).
Local Abbreviation run := (read_loop parse_html_entities setters).

Lemma read_loop_app (st : loop_state) (xs ys : list xml_node) :
  run st (xs ++ ys) = run (run st xs) ys.
Proof. apply fold_left_app. Qed.

Lemma read_loop_cons (st : loop_state) (x : xml_node) (xs : list xml_node) :
  run st (x :: xs) = run (process st x) xs.
Proof. reflexivity. Qed.

(** *** The shape flags *)

Lemma flags_le_refl (st : loop_state) : flags_le st st.
Proof. repeat split; auto. Qed.

Lemma flags_le_trans (a b c : loop_state) :
  flags_le a b -> flags_le b c -> flags_le a c.
Proof. unfold flags_le. intuition. Qed.

Lemma print_flags (line : string) (st : loop_state) :
  flags_le st (print line st).
Proof. repeat split; auto. Qed.

Lemma resolve_name_flags (name : string) (st : loop_state) :
  flags_le st (resolve_name name st).
Proof.
  unfold resolve_name.
  destruct (field_map_find name); repeat split; auto.
Qed.

Lemma on_element_flags (st : loop_state) : flags_le st (on_element st).
Proof.
  unfold flags_le, on_element; simpl.
  repeat split; intros ->; reflexivity.
Qed.

Lemma on_end_element_flags (st : loop_state) : flags_le st (on_end_element st).
Proof. repeat split; auto. Qed.

Lemma on_text_flags (name value : string) (st : loop_state) :
  flags_le st (on_text setters name value st).
Proof.
  unfold on_text.
  destruct (FIELDS_eqb (field st) FIELDTEXT);
    destruct (0 <? String.length value)%nat; simpl;
    try destruct (member_map_find setters _); repeat split; auto.
Qed.

Lemma process_node_flags (st : loop_state) (node : xml_node) :
  flags_le st (process st node).
Proof.
  unfold process_node.
  destruct (0 <? String.length (xmlchar_to_str (ConstName node)))%nat;
    [| apply flags_le_refl].
  eapply flags_le_trans; [apply resolve_name_flags|].
  destruct (NodeType node);
    first [ apply on_element_flags | apply on_end_element_flags
          | apply on_text_flags | apply print_flags | apply flags_le_refl ].
Qed.

Lemma read_loop_flags (nodes : list xml_node) (st : loop_state) :
  flags_le st (run st nodes).
Proof.
  revert st. induction nodes as [|node nodes IH]; intro st.
  - apply flags_le_refl.
  - rewrite read_loop_cons.
    eapply flags_le_trans; [apply process_node_flags | apply IH].
Qed.

(** The test of lines 182-183 is a comparison of [field] with the
    wrapper field. *)
Lemma on_end_element_res (st : loop_state) :
  res (on_end_element st)
  = if FIELDS_eqb (field st) (wrapper_field st)
    then (res st ++ [anime st])%list else res st.
Proof.
  unfold on_end_element, wrapper_field; simpl.
  destruct (entry_after_anime st); simpl;
    [rewrite orb_false_r | ]; reflexivity.
Qed.

End LoopFacts.

(** ** The shape flags only ever rise *)

(** C10: during a run of [deserialize] the flags [seen_anime],
    [seen_entry] and [entry_after_anime] are monotone: a flag that is set
    after some nodes of the document is still set after any further nodes.
    The field whose end-element finalizes a record is therefore [ANIME] at
    the start, is always [ANIME] or [ENTRY], and once it is [ENTRY] it stays
    [ENTRY]: it changes at most once, from [ANIME] to [ENTRY]. *)
Theorem shape_flags_monotone
        (parse_html_entities : string -> string) (setters : AnimeSetters)
        (before after : list xml_node) :
  let st := read_loop parse_html_entities setters initial_state before in
  let st' := read_loop parse_html_entities setters initial_state (before ++ after) in
  (seen_anime st = true -> seen_anime st' = true)
  /\ (seen_entry st = true -> seen_entry st' = true)
  /\ (entry_after_anime st = true -> entry_after_anime st' = true)
  /\ wrapper_field initial_state = ANIME
  /\ (wrapper_field st = ANIME \/ wrapper_field st = ENTRY)
  /\ (wrapper_field st = ENTRY -> wrapper_field st' = ENTRY).
Proof.
  intros st st'.
  assert (Hle : flags_le st st').
  { subst st st'. rewrite read_loop_app. apply read_loop_flags. }
  destruct Hle as (Heaa & Hanime & Hentry).
  repeat split; auto.
  - unfold wrapper_field. destruct (entry_after_anime st); auto.
  - unfold wrapper_field. intro H.
    destruct (entry_after_anime st) eqn:E; [| discriminate H].
    rewrite (Heaa eq_refl). reflexivity.
Qed.

Lemma shape_flags_monotone_witness :
  let before := [StartElement "anime"; StartElement "entry"] in
  let after := [StartElement "id"; TextNode "5"; EndElement "id"; EndElement "entry"] in
  let st' := read_loop (fun s => s) spec_setters initial_state (before ++ after) in
  seen_anime st' = true /\ seen_entry st' = true
  /\ entry_after_anime st' = true /\ wrapper_field st' = ENTRY.
Proof.
  intros before after st'.
  destruct (shape_flags_monotone (fun s => s) spec_setters before after)
    as (Hanime & Hentry & Heaa & _ & _ & Hwrapper).
  split; [apply Hanime; reflexivity |].
  split; [apply Hentry; reflexivity |].
  split; [apply Heaa; reflexivity |].
  apply Hwrapper; reflexivity.
Defined.

(** ** The two shapes *)

Section Shapes.

Variable parse_html_entities : string -> string.
Variable setters : AnimeSetters.

Local Abbreviation process := (process_node parse_html_entities setters).
Local Abbreviation run := (read_loop parse_html_entities setters).
Local Abbreviation store := (store_field parse_html_entities setters).

(** The name [name] stands for [f] in the table. *)
Lemma process_start (st : loop_state) (name : string) (f : FIELDS) :
  field_map_find name = Some f ->
  process st (StartElement name)
  = on_element
      {| anime := anime st; field := f; prev_field := field st;
         entry_after_anime := entry_after_anime st;
         seen_anime := seen_anime st; seen_entry := seen_entry st;
         res := res st; cerr := cerr st |}.
Proof.
  intro Hf. unfold process_node. simpl.
  rewrite (field_map_find_nonempty _ _ Hf).
  unfold resolve_name. rewrite Hf. reflexivity.
Qed.

Lemma process_end (st : loop_state) (name : string) (f : FIELDS) :
  field_map_find name = Some f ->
  process st (EndElement name)
  = on_end_element
      {| anime := anime st; field := f; prev_field := field st;
         entry_after_anime := entry_after_anime st;
         seen_anime := seen_anime st; seen_entry := seen_entry st;
         res := res st; cerr := cerr st |}.
Proof.
  intro Hf. unfold process_node. simpl.
  rewrite (field_map_find_nonempty _ _ Hf).
  unfold resolve_name. rewrite Hf. reflexivity.
Qed.

Lemma process_text (st : loop_state) (text : string) :
  process st (TextNode text)
  = on_text setters "#text" (parse_html_entities text)
      {| anime := anime st; field := FIELDTEXT; prev_field := field st;
         entry_after_anime := entry_after_anime st;
         seen_anime := seen_anime st; seen_entry := seen_entry st;
         res := res st; cerr := cerr st |}.
Proof. reflexivity. Qed.

Ltac state_simpl :=
  unfold core, print, on_element, on_end_element;
  cbn [anime field prev_field entry_after_anime seen_anime seen_entry
       res cerr fst snd].

(** The opening tag of a field leaves the core of the state, and makes
    the field's tag the current one. *)
Lemma start_field (st : loop_state) (name : string) (f : FIELDS) :
  field_map_find name = Some f ->
  FIELDS_eqb f ENTRY = false -> FIELDS_eqb f ANIME = false ->
  core (process st (StartElement name)) = core st
  /\ field (process st (StartElement name)) = f.
Proof.
  intros Hf Hentry Hanime. rewrite (process_start _ _ _ Hf).
  state_simpl. rewrite Hentry, Hanime, !andb_false_l, !orb_false_r.
  split; reflexivity.
Qed.

(** The closing tag of a field leaves the core of the state. *)
Lemma end_field (st : loop_state) (name : string) (f : FIELDS) :
  field_map_find name = Some f ->
  FIELDS_eqb f ENTRY = false -> FIELDS_eqb f ANIME = false ->
  core (process st (EndElement name)) = core st.
Proof.
  intros Hf Hentry Hanime. rewrite (process_end _ _ _ Hf).
  state_simpl. rewrite Hentry, Hanime, !andb_false_r. reflexivity.
Qed.

(** A text is handed to the setter of the current field. *)
Lemma text_node (st : loop_state) (text : string) :
  core (process st (TextNode text))
  = (store (anime st) (Some (field st), text),
     entry_after_anime st, seen_anime st, seen_entry st, res st)
  \/ (0 <? String.length text)%nat = false.
Proof.
  destruct (0 <? String.length text)%nat eqn:Htext; [left | right; reflexivity].
  rewrite process_text. unfold on_text, store_field. state_simpl.
  rewrite FIELDS_eqb_refl, Htext. cbn [andb]. state_simpl.
  destruct (0 <? String.length (parse_html_entities text))%nat.
  - destruct (member_map_find setters (field st)); reflexivity.
  - reflexivity.
Qed.

Lemma core_inv (a : loop_state) (x : Anime) (eaa sa se : bool) (r : list Anime) :
  core a = (x, eaa, sa, se, r) ->
  anime a = x /\ entry_after_anime a = eaa
  /\ seen_anime a = sa /\ seen_entry a = se /\ res a = r.
Proof. unfold core. intro H. injection H. auto. Qed.

(** A field of an item: its setter, if any, receives the cleaned text;
    the flags and the finalized records stay. *)
Lemma run_field (st : loop_state) (e : string * string) :
  item_field_name (fst e) = true ->
  core (run st (field_nodes e))
  = (store (anime st) (logical_field e),
     entry_after_anime st, seen_anime st, seen_entry st, res st).
Proof.
  destruct e as [name text]. cbn [fst]. unfold item_field_name.
  destruct (field_map_find name) as [f|] eqn:Hf; [| discriminate].
  rewrite andb_true_iff, !negb_true_iff. intros [Hentry Hanime].
  unfold field_nodes, logical_field. cbn [fst snd]. rewrite Hf.
  destruct (start_field st name f Hf Hentry Hanime) as [Hstart Hfield].
  apply core_inv in Hstart.
  destruct Hstart as (Ha & Heaa & Hsa & Hse & Hres).
  destruct (0 <? String.length text)%nat eqn:Htext; cbn [app].
  - rewrite !read_loop_cons. cbn [read_loop fold_left].
    erewrite end_field by eassumption.
    destruct (text_node (process st (StartElement name)) text) as [Ht | Ht];
      [| congruence].
    rewrite Ht, Hfield, Ha, Heaa, Hsa, Hse, Hres. reflexivity.
  - rewrite !read_loop_cons. cbn [read_loop fold_left].
    erewrite end_field by eassumption.
    unfold core, store_field. cbn [fst snd]. rewrite Htext. cbn [andb].
    rewrite Ha, Heaa, Hsa, Hse, Hres. reflexivity.
Qed.

Lemma run_fields (item : list (string * string)) (st : loop_state) :
  valid_item item = true ->
  core (run st (flat_map field_nodes item))
  = (fold_left store (map logical_field item) (anime st),
     entry_after_anime st, seen_anime st, seen_entry st, res st).
Proof.
  revert st. induction item as [|e item IH]; intros st Hvalid.
  - reflexivity.
  - cbn [valid_item forallb] in Hvalid.
    apply andb_true_iff in Hvalid. destruct Hvalid as [He Hitem].
    cbn [flat_map map fold_left]. rewrite read_loop_app.
    rewrite (IH _ Hitem).
    destruct (core_inv _ _ _ _ _ _ (run_field st e He))
      as (-> & -> & -> & -> & ->).
    reflexivity.
Qed.

(** An opening tag of known name. *)
Lemma start_element_core (st : loop_state) (name : string) (f : FIELDS) :
  field_map_find name = Some f ->
  core (process st (StartElement name))
  = (anime st,
     entry_after_anime st
     || (FIELDS_eqb f ENTRY && seen_anime st && negb (seen_entry st)),
     seen_anime st || FIELDS_eqb f ANIME,
     seen_entry st || FIELDS_eqb f ENTRY,
     res st).
Proof.
  intro Hf. rewrite (process_start _ _ _ Hf). reflexivity.
Qed.

(** A closing tag of known name: the record is finalized exactly when
    the name stands for the wrapper field. *)
Lemma end_element_core (st : loop_state) (name : string) (f : FIELDS) :
  field_map_find name = Some f ->
  core (process st (EndElement name))
  = if FIELDS_eqb f (wrapper_field st)
    then (Anime_new, entry_after_anime st, seen_anime st, seen_entry st,
          (res st ++ [anime st])%list)
    else core st.
Proof.
  intro Hf. rewrite (process_end _ _ _ Hf).
  unfold wrapper_field. state_simpl.
  destruct (entry_after_anime st); cbn [andb orb negb];
    [rewrite orb_false_r |]; destruct (FIELDS_eqb f _); reflexivity.
Qed.

(** An item of a search result: [<entry>], the fields, [</entry>], read
    after [<anime>] has been seen. *)
Lemma run_item_entry (st : loop_state) (item : list (string * string)) :
  valid_item item = true ->
  seen_anime st = true ->
  entry_after_anime st = true \/ seen_entry st = false ->
  core (run st (item_nodes "entry" item))
  = (Anime_new, true, true, true,
     (res st ++ [fold_left store (map logical_field item) (anime st)])%list).
Proof.
  intros Hvalid Hanime Hshape. unfold item_nodes.
  rewrite read_loop_cons, read_loop_app. cbn [read_loop fold_left].
  assert (Hstart : core (process st (StartElement "entry"))
                   = (anime st, true, true, true, res st)).
  { rewrite (start_element_core st "entry" ENTRY eq_refl), Hanime.
    destruct Hshape as [-> | ->]; cbn [FIELDS_eqb FIELDS_value Z.eqb andb orb negb];
      rewrite ?orb_true_r; reflexivity. }
  apply core_inv in Hstart. destruct Hstart as (Ha & Heaa & Hsa & Hse & Hres).
  pose proof (run_fields item (process st (StartElement "entry")) Hvalid) as Hfields.
  rewrite Ha, Heaa, Hsa, Hse, Hres in Hfields.
  apply core_inv in Hfields. destruct Hfields as (Ha' & Heaa' & Hsa' & Hse' & Hres').
  rewrite (end_element_core _ "entry" ENTRY eq_refl).
  unfold wrapper_field. rewrite Heaa', Ha', Hsa', Hse', Hres'. reflexivity.
Qed.

(** An item of a list: [<anime>], the fields, [</anime>], read while
    [entry_after_anime] is unset and [<entry>] has been seen. *)
Lemma run_item_anime (st : loop_state) (item : list (string * string)) :
  valid_item item = true ->
  entry_after_anime st = false ->
  seen_entry st = true ->
  core (run st (item_nodes "anime" item))
  = (Anime_new, false, true, true,
     (res st ++ [fold_left store (map logical_field item) (anime st)])%list).
Proof.
  intros Hvalid Heaa0 Hentry. unfold item_nodes.
  rewrite read_loop_cons, read_loop_app. cbn [read_loop fold_left].
  assert (Hstart : core (process st (StartElement "anime"))
                   = (anime st, false, true, true, res st)).
  { rewrite (start_element_core st "anime" ANIME eq_refl), Heaa0, Hentry.
    cbn [FIELDS_eqb FIELDS_value Z.eqb andb orb negb].
    rewrite ?orb_true_r. reflexivity. }
  apply core_inv in Hstart. destruct Hstart as (Ha & Heaa & Hsa & Hse & Hres).
  pose proof (run_fields item (process st (StartElement "anime")) Hvalid) as Hfields.
  rewrite Ha, Heaa, Hsa, Hse, Hres in Hfields.
  apply core_inv in Hfields. destruct Hfields as (Ha' & Heaa' & Hsa' & Hse' & Hres').
  rewrite (end_element_core _ "anime" ANIME eq_refl).
  unfold wrapper_field. rewrite Heaa', Ha', Hsa', Hse', Hres'. reflexivity.
Qed.

Local Abbreviation record_of := (item_record parse_html_entities setters).

(** The items of a search result, one after the other. *)
Lemma run_items_entry (items : list (list (string * string))) (st : loop_state) :
  forallb valid_item items = true ->
  anime st = Anime_new ->
  seen_anime st = true ->
  entry_after_anime st = true \/ seen_entry st = false ->
  core (run st (flat_map (item_nodes "entry") items))
  = match items with
    | [] => core st
    | _ => (Anime_new, true, true, true,
            (res st ++ map record_of (logical_items items))%list)
    end.
Proof.
  revert st. induction items as [|item items IH]; intros st Hvalid Hnew Hanime Hshape.
  - reflexivity.
  - cbn [forallb] in Hvalid. apply andb_true_iff in Hvalid.
    destruct Hvalid as [Hitem Hitems].
    cbn [flat_map]. rewrite read_loop_app.
    pose proof (run_item_entry st item Hitem Hanime Hshape) as Hfirst.
    rewrite Hnew in Hfirst.
    destruct (core_inv _ _ _ _ _ _ Hfirst) as (Ha & Heaa & Hsa & Hse & Hres).
    rewrite (IH _ Hitems Ha Hsa (or_introl Heaa)).
    destruct items as [|item' items'].
    + rewrite Hfirst. reflexivity.
    + rewrite Hres, <- app_assoc. reflexivity.
Qed.

(** The items of a list, one after the other. *)
Lemma run_items_anime (items : list (list (string * string))) (st : loop_state) :
  forallb valid_item items = true ->
  anime st = Anime_new ->
  entry_after_anime st = false ->
  seen_entry st = true ->
  core (run st (flat_map (item_nodes "anime") items))
  = match items with
    | [] => core st
    | _ => (Anime_new, false, true, true,
            (res st ++ map record_of (logical_items items))%list)
    end.
Proof.
  revert st. induction items as [|item items IH]; intros st Hvalid Hnew Heaa0 Hentry.
  - reflexivity.
  - cbn [forallb] in Hvalid. apply andb_true_iff in Hvalid.
    destruct Hvalid as [Hitem Hitems].
    cbn [flat_map]. rewrite read_loop_app.
    pose proof (run_item_anime st item Hitem Heaa0 Hentry) as Hfirst.
    rewrite Hnew in Hfirst.
    destruct (core_inv _ _ _ _ _ _ Hfirst) as (Ha & Heaa & Hsa & Hse & Hres).
    rewrite (IH _ Hitems Ha Heaa Hse).
    destruct items as [|item' items'].
    + rewrite Hfirst. reflexivity.
    + rewrite Hres, <- app_assoc. reflexivity.
Qed.

Lemma deserialize_reader_res (reader : xmlTextReader) :
  fst (deserialize_reader parse_html_entities setters reader)
  = res (run initial_state (reader_nodes reader)).
Proof.
  unfold deserialize_reader. cbn [fst].
  destruct (reader_last reader =? 0); reflexivity.
Qed.

(** A search result with at least one entry deserializes to the records
    of its entries, in order. *)
Lemma deserialize_shape_A (items : list (list (string * string))) (last : Z) :
  items <> [] ->
  forallb valid_item items = true ->
  fst (deserialize_reader parse_html_entities setters
         {| reader_nodes := shape_A items; reader_last := last |})
  = map record_of (logical_items items).
Proof.
  intros Hnonempty Hvalid. rewrite deserialize_reader_res.
  cbn [reader_nodes]. unfold shape_A, document_nodes.
  rewrite read_loop_cons, read_loop_app. cbn [read_loop fold_left].
  set (st1 := process initial_state (StartElement "anime")).
  pose proof (run_items_entry items st1 Hvalid eq_refl eq_refl
                              (or_intror eq_refl)) as Hitems.
  destruct items as [|item items]; [contradiction Hnonempty; reflexivity |].
  destruct (core_inv _ _ _ _ _ _ Hitems) as (Ha & Heaa & Hsa & Hse & Hres).
  pose proof (end_element_core
                (run st1 (flat_map (item_nodes "entry") (item :: items)))
                "anime" ANIME eq_refl) as Hend.
  unfold wrapper_field in Hend. rewrite Heaa in Hend.
  cbn [FIELDS_eqb FIELDS_value Z.eqb] in Hend.
  destruct (core_inv _ _ _ _ _ _ Hend) as (_ & _ & _ & _ & Hres').
  unfold read_loop in *. rewrite Hres', Hres. reflexivity.
Qed.

(** A list deserializes to the records of its items, in order. *)
Lemma deserialize_shape_B (items : list (list (string * string))) (last : Z) :
  forallb valid_item items = true ->
  fst (deserialize_reader parse_html_entities setters
         {| reader_nodes := shape_B items; reader_last := last |})
  = map record_of (logical_items items).
Proof.
  intros Hvalid. rewrite deserialize_reader_res.
  cbn [reader_nodes]. unfold shape_B, document_nodes.
  rewrite read_loop_cons, read_loop_app. cbn [read_loop fold_left].
  set (st1 := process initial_state (StartElement "entry")).
  pose proof (run_items_anime items st1 Hvalid eq_refl eq_refl eq_refl) as Hitems.
  pose proof (end_element_core
                (run st1 (flat_map (item_nodes "anime") items))
                "entry" ENTRY eq_refl) as Hend.
  unfold wrapper_field in Hend.
  destruct items as [|item items].
  - reflexivity.
  - destruct (core_inv _ _ _ _ _ _ Hitems) as (Ha & Heaa & Hsa & Hse & Hres).
    rewrite Heaa in Hend. cbn [FIELDS_eqb FIELDS_value Z.eqb] in Hend.
    destruct (core_inv _ _ _ _ _ _ Hend) as (_ & _ & _ & _ & Hres').
    unfold read_loop in *. rewrite Hres', Hres. reflexivity.
Qed.

End Shapes.

(** ** The two shapes mirror each other *)

Section Mirror.

Variable parse_html_entities : string -> string.
Variable setters : AnimeSetters.

Local Abbreviation process := (process_node parse_html_entities setters).
Local Abbreviation run := (read_loop parse_html_entities setters).

Lemma member_map_find_mirror (f : FIELDS) :
  member_map_find setters (mirror_field f) = member_map_find setters f.
Proof. destruct f; reflexivity. Qed.

Lemma mirror_field_entry (f : FIELDS) :
  FIELDS_eqb (mirror_field f) ENTRY = FIELDS_eqb f ANIME.
Proof. destruct f; reflexivity. Qed.

Lemma mirror_state_print (a b : loop_state) (la lb : string) :
  mirror_state a b -> mirror_state (print la a) (print lb b).
Proof. unfold mirror_state, print. cbn. tauto. Qed.

Lemma mirror_state_resolve (a b : loop_state) (na nb : string) :
  option_map mirror_field (field_map_find na) = field_map_find nb ->
  mirror_state a b -> mirror_state (resolve_name na a) (resolve_name nb b).
Proof.
  intros Hnames H. unfold resolve_name.
  destruct (field_map_find na) as [fa|]; destruct (field_map_find nb) as [fb|];
    try discriminate Hnames.
  - injection Hnames as <-.
    unfold mirror_state in *. cbn.
    destruct H as (Ha & Hres & Hf & Hp & Hrest).
    repeat split; try tauto. destruct fa; reflexivity.
  - apply mirror_state_print, H.
Qed.

Lemma mirror_state_element (a b : loop_state) :
  mirror_state a b -> mirror_state (on_element a) (on_element b).
Proof.
  unfold mirror_state, on_element. cbn.
  intros (Ha & Hres & Hf & Hp & Heaa & Heab & Hsaa & Hsea & Hsab & Hseb).
  rewrite Heaa, Heab, Hsaa, Hsea, Hsab, Hseb. cbn.
  rewrite andb_false_r. repeat split; auto.
Qed.

Lemma mirror_state_end_element (a b : loop_state) :
  mirror_state a b -> mirror_state (on_end_element a) (on_end_element b).
Proof.
  unfold mirror_state, on_end_element. cbn.
  intros (Ha & Hres & Hf & Hp & Heaa & Heab & Hsaa & Hsea & Hsab & Hseb).
  rewrite Heaa, Heab, Hf, mirror_field_entry. cbn.
  rewrite orb_false_r.
  destruct (FIELDS_eqb (field b) ANIME); rewrite Ha, Hres; repeat split; auto.
Qed.

Lemma mirror_state_text (a b : loop_state) (na nb value : string) :
  mirror_state a b ->
  mirror_state (on_text setters na value a) (on_text setters nb value b).
Proof.
  intro H. unfold on_text.
  assert (Hpa : forall line, prev_field (if FIELDS_eqb (field a) FIELDTEXT then a
                                         else print line a) = prev_field a)
    by (intro; destruct (FIELDS_eqb (field a) FIELDTEXT); reflexivity).
  assert (Hpb : forall line, prev_field (if FIELDS_eqb (field b) FIELDTEXT then b
                                         else print line b) = prev_field b)
    by (intro; destruct (FIELDS_eqb (field b) FIELDTEXT); reflexivity).
  assert (Hfirst : mirror_state
                     (if FIELDS_eqb (field a) FIELDTEXT then a
                      else print "There's a problem!" a)
                     (if FIELDS_eqb (field b) FIELDTEXT then b
                      else print "There's a problem!" b)).
  { destruct (FIELDS_eqb (field a) FIELDTEXT), (FIELDS_eqb (field b) FIELDTEXT);
      auto using mirror_state_print;
      unfold mirror_state, print in *; cbn; tauto. }
  destruct (0 <? String.length value)%nat; [| apply mirror_state_print, Hfirst].
  rewrite Hpa, Hpb.
  destruct H as (_ & _ & _ & Hp & _). rewrite Hp, member_map_find_mirror.
  destruct (member_map_find setters (prev_field b)) as [setter|]; [| exact Hfirst].
  unfold mirror_state in *. cbn.
  destruct Hfirst as (Ha & Hrest). rewrite Ha. tauto.
Qed.

(** One iteration of the loop on mirrored nodes keeps the states
    mirrored. *)
Lemma mirror_state_process (a b : loop_state) (na nb : xml_node) :
  mirror_node na nb -> mirror_state a b ->
  mirror_state (process a na) (process b nb).
Proof.
  intros (Htype & Hvalue & Hlen & Hnames) H. unfold process_node.
  rewrite <- Htype, <- Hvalue, <- Hlen.
  destruct (0 <? String.length (xmlchar_to_str (ConstName na)))%nat; [| exact H].
  pose proof (mirror_state_resolve a b _ _ Hnames H) as Hresolved.
  destruct (NodeType na);
    auto using mirror_state_print, mirror_state_element,
               mirror_state_end_element, mirror_state_text.
Qed.

Lemma mirror_state_run (xs ys : list xml_node) (a b : loop_state) :
  Forall2 mirror_node xs ys -> mirror_state a b ->
  mirror_state (run a xs) (run b ys).
Proof.
  intro Hnodes. revert a b.
  induction Hnodes as [|x y xs ys Hxy Hnodes IH]; intros a b H; [exact H |].
  rewrite !read_loop_cons. apply IH, mirror_state_process; assumption.
Qed.

(** Whatever follows [<anime><entry>] in a search result and its mirror
    image after [<entry><anime>] in a list, be it fields, white space or
    elements of unknown name, the two documents deserialize to the same
    records. *)
Lemma shape_mirror (body_A body_B : list xml_node) (last_A last_B : Z) :
  Forall2 mirror_node body_A body_B ->
  fst (deserialize_reader parse_html_entities setters
         {| reader_nodes := StartElement "anime" :: StartElement "entry" :: body_A;
            reader_last := last_A |})
  = fst (deserialize_reader parse_html_entities setters
           {| reader_nodes := StartElement "entry" :: StartElement "anime" :: body_B;
              reader_last := last_B |}).
Proof.
  intro Hbody. rewrite !deserialize_reader_res. cbn [reader_nodes].
  change (StartElement "anime" :: StartElement "entry" :: body_A)
    with ([StartElement "anime"; StartElement "entry"] ++ body_A)%list.
  change (StartElement "entry" :: StartElement "anime" :: body_B)
    with ([StartElement "entry"; StartElement "anime"] ++ body_B)%list.
  rewrite !read_loop_app.
  eapply (mirror_state_run body_A body_B); [exact Hbody |].
  unfold mirror_state. repeat split; reflexivity.
Qed.

End Mirror.

(** ** Shape independence *)

(** C1, as stated, fails for the empty set of items: [<anime></anime>] is
    read as one (empty) item, since no [<entry>] tells the deserializer
    that [anime] is the outer element, while [<entry></entry>] yields no
    record. *)
Lemma shape_independence_fails_without_items :
  let items : list (list (string * string)) := [] in
  let from_A := fst (deserialize_reader (fun s => s) spec_setters
                       {| reader_nodes := shape_A items; reader_last := 0 |}) in
  let from_B := fst (deserialize_reader (fun s => s) spec_setters
                       {| reader_nodes := shape_B items; reader_last := 0 |}) in
  forallb valid_item items = true
  /\ shape_A items = [StartElement "anime"; EndElement "anime"]
  /\ shape_B items = [StartElement "entry"; EndElement "entry"]
  /\ from_A = [Anime_new] /\ from_B = [] /\ from_A <> from_B.
Proof.
  repeat split; try reflexivity. discriminate.
Qed.

(** C1 (amended): for every non-empty sequence of items, a document of
    shape A and a document of shape B whose items say the same (the same
    tags with the same texts, under whatever names of the table) deserialize
    to the same sequence of records. *)
Theorem shape_independence
        (parse_html_entities : string -> string) (setters : AnimeSetters)
        (items_A items_B : list (list (string * string))) (last_A last_B : Z) :
  items_A <> [] ->
  forallb valid_item items_A = true ->
  forallb valid_item items_B = true ->
  logical_items items_A = logical_items items_B ->
  fst (deserialize_reader parse_html_entities setters
         {| reader_nodes := shape_A items_A; reader_last := last_A |})
  = fst (deserialize_reader parse_html_entities setters
           {| reader_nodes := shape_B items_B; reader_last := last_B |}).
Proof.
  intros Hnonempty HA HB Hsame.
  rewrite deserialize_shape_A by assumption.
  rewrite deserialize_shape_B by assumption.
  rewrite Hsame. reflexivity.
Qed.

Lemma shape_independence_witness :
  let items_A := [[("id", "5"); ("title", "Foo")]; [("id", "7"); ("english", "Bar")]] in
  let items_B := [[("series_animedb_id", "5"); ("series_title", "Foo")];
                  [("series_animedb_id", "7"); ("series_synonyms", "Bar")]] in
  fst (deserialize_reader (fun s => s) spec_setters
         {| reader_nodes := shape_A items_A; reader_last := 0 |})
  = fst (deserialize_reader (fun s => s) spec_setters
           {| reader_nodes := shape_B items_B; reader_last := 0 |}).
Proof.
  intros items_A items_B.
  apply (shape_independence (fun s => s) spec_setters items_A items_B 0 0).
  - discriminate.
  - reflexivity.
  - reflexivity.
  - reflexivity.
Defined.

(** ** Evaluations *)

(** C2: the search result
    [<anime><entry><id>5</id><title>Foo</title></entry>
            <entry><id>7</id><title>Bar</title></entry></anime>]
    deserializes to exactly two records, in this order: the first has
    catalog id 5 and title [Foo], the second catalog id 7 and title [Bar]
    (every other field is as in a fresh record), and nothing is printed.
    The text cleaning is any function that leaves these four texts as they
    are. *)
Theorem deserialize_two_entries
        (parse_html_entities : string -> string)
        (H5 : parse_html_entities "5" = "5")
        (HFoo : parse_html_entities "Foo" = "Foo")
        (H7 : parse_html_entities "7" = "7")
        (HBar : parse_html_entities "Bar" = "Bar") :
  exists first second : Anime,
    deserialize_reader parse_html_entities spec_setters
      {| reader_nodes := two_entries_nodes; reader_last := 0 |}
    = ([first; second], [])
    /\ first = with_series_title "Foo" (with_series_itemdb_id 5 Anime_new)
    /\ second = with_series_title "Bar" (with_series_itemdb_id 7 Anime_new)
    /\ series_itemdb_id first = 5 /\ series_title first = "Foo"
    /\ series_itemdb_id second = 7 /\ series_title second = "Bar".
Proof.
  do 2 eexists. split; [| repeat split; reflexivity].
  unfold deserialize_reader, read_loop, two_entries_nodes.
  cbn [reader_nodes reader_last fold_left].
  rewrite !process_text, H5, HFoo, H7, HBar.
  reflexivity.
Qed.

Lemma deserialize_two_entries_witness :
  exists first second : Anime,
    deserialize_reader (fun s => s) spec_setters
      {| reader_nodes := two_entries_nodes; reader_last := 0 |}
    = ([first; second], [])
    /\ first = with_series_title "Foo" (with_series_itemdb_id 5 Anime_new)
    /\ second = with_series_title "Bar" (with_series_itemdb_id 7 Anime_new)
    /\ series_itemdb_id first = 5 /\ series_title first = "Foo"
    /\ series_itemdb_id second = 7 /\ series_title second = "Bar".
Proof.
  apply (deserialize_two_entries (fun s => s)); reflexivity.
Defined.

(** ** Records are finalized at end-elements only *)

Section Finalize.

Variable parse_html_entities : string -> string.
Variable setters : AnimeSetters.

Local Abbreviation process := (process_node parse_html_entities setters).
Local Abbreviation run := (read_loop parse_html_entities setters).

Lemma on_text_res (name value : string) (st : loop_state) :
  res (on_text setters name value st) = res st.
Proof.
  unfold on_text.
  destruct (FIELDS_eqb (field st) FIELDTEXT);
    destruct (0 <? String.length value)%nat;
    try destruct (member_map_find setters _); reflexivity.
Qed.

Lemma resolve_name_res (name : string) (st : loop_state) :
  res (resolve_name name st) = res st.
Proof. unfold resolve_name. destruct (field_map_find name); reflexivity. Qed.

(** A node that is not the end of a wrapper finalizes nothing. *)
Lemma process_node_res (st : loop_state) (node : xml_node) :
  not_wrapper_end node = true -> res (process st node) = res st.
Proof.
  unfold not_wrapper_end, process_node. intro Hnode.
  destruct (xmlchar_to_str (ConstName node)) as [|c name] eqn:Hname;
    [reflexivity |].
  cbn [String.length Nat.ltb Nat.leb].
  destruct (NodeType node);
    try (cbn [res print on_element]; apply resolve_name_res);
    try (rewrite on_text_res; apply resolve_name_res).
  unfold resolve_name.
  destruct (field_map_find (String c name)) as [f|]; [| discriminate Hnode].
  apply andb_true_iff in Hnode. rewrite !negb_true_iff in Hnode.
  destruct Hnode as [Hentry Hanime].
  unfold on_end_element.
  cbn [res anime field prev_field entry_after_anime seen_anime seen_entry].
  rewrite Hentry, Hanime, !andb_false_r. reflexivity.
Qed.

Lemma read_loop_res (nodes : list xml_node) (st : loop_state) :
  forallb not_wrapper_end nodes = true -> res (run st nodes) = res st.
Proof.
  revert st. induction nodes as [|node nodes IH]; intros st Hnodes.
  - reflexivity.
  - cbn [forallb] in Hnodes. apply andb_true_iff in Hnodes.
    destruct Hnodes as [Hnode Hnodes].
    rewrite read_loop_cons, (IH _ Hnodes). apply process_node_res, Hnode.
Qed.

(** Nothing is flushed when the input ends: a document in which every
    end-element bears a known name other than a wrapper's yields no
    record, whether the reader stops at the end of the document or on an
    error, and whatever the setters have stored by then. *)
Lemma no_flush_at_end_of_input (nodes : list xml_node) (last : Z) :
  forallb not_wrapper_end nodes = true ->
  fst (deserialize_reader parse_html_entities setters
         {| reader_nodes := nodes; reader_last := last |}) = [].
Proof.
  intro Hnodes. rewrite deserialize_reader_res. cbn [reader_nodes].
  apply (read_loop_res nodes initial_state Hnodes).
Qed.

(** An element of unknown name followed by a text: a line is printed,
    and the record being filled is left alone as long as the field that
    was current before the element has no setter. *)
Lemma unknown_element_text (st : loop_state) (name text : string) :
  (0 <? String.length name)%nat = true ->
  field_map_find name = None ->
  member_map_find setters (field st) = None ->
  let st' := run st [StartElement name; TextNode text] in
  anime st' = anime st
  /\ res st' = res st
  /\ In ("Unexpected field " ++ name) (cerr st').
Proof.
  intros Hname Hunknown Hsetter st'. subst st'.
  cbn [read_loop fold_left]. rewrite process_text.
  unfold process_node. cbn [StartElement ConstName ConstValue NodeType xmlchar_to_str].
  rewrite Hname. unfold resolve_name. rewrite Hunknown.
  unfold on_text, on_element, print.
  cbn [anime field prev_field entry_after_anime seen_anime seen_entry res cerr].
  rewrite FIELDS_eqb_refl.
  cbn [anime field prev_field entry_after_anime seen_anime seen_entry res cerr].
  rewrite Hsetter.
  destruct (0 <? String.length (parse_html_entities text))%nat;
    cbn [anime res cerr]; repeat split; try reflexivity;
    rewrite ?in_app_iff; cbn [In]; auto.
Qed.

End Finalize.

(** C3 (the code departs from the claim): the document
    [<anime><xyz_unknown></xyz_unknown>], cut off there, never produces the
    end-element of a wrapper, and yet [deserialize] returns one finalized
    record.  The unknown name leaves [field] at [ANIME], so the test of lines
    182-183 succeeds on [</xyz_unknown>]. *)
Theorem unclosed_document_finalizes
        (parse_html_entities : string -> string) (setters : AnimeSetters) :
  existsb wrapper_end unclosed_nodes = false
  /\ deserialize_reader parse_html_entities setters
       {| reader_nodes := unclosed_nodes; reader_last := -1 |}
     = ([Anime_new],
        ["Unexpected field xyz_unknown"; "Unexpected field xyz_unknown";
         "Error: Failed to parse! ret = -1"]).
Proof. split; reflexivity. Qed.

(** C7 (the code departs from the claim): in
    [<anime><entry><title><xyz_unknown>oops</xyz_unknown></title></entry></anime>],
    the element of unknown name is reported and the run goes on, but its
    text is handed to the setter of the title, the field that was current
    before it: the record being filled is altered, and the record returned
    bears the title [oops]. *)
Theorem unknown_element_text_reaches_setter (setters : AnimeSetters) :
  let before := read_loop (fun s => s) setters initial_state
                  [StartElement "anime"; StartElement "entry"; StartElement "title"] in
  let st := read_loop (fun s => s) setters initial_state unknown_in_title_nodes in
  field_map_find "xyz_unknown" = None
  /\ anime before = Anime_new
  /\ anime st = set_series_title setters Anime_new "oops"
  /\ cerr st = ["Unexpected field xyz_unknown"]
  /\ fst (deserialize_reader (fun s => s) setters
            {| reader_nodes := unknown_in_title_document; reader_last := 0 |})
     = [set_series_title setters Anime_new "oops"]
  /\ map series_title
         (fst (deserialize_reader (fun s => s) spec_setters
                 {| reader_nodes := unknown_in_title_document; reader_last := 0 |}))
     = ["oops"].
Proof. repeat split; reflexivity. Qed.

(** ** The order of the collections *)

Lemma string_compare_refl (s : string) : String.compare s s = Eq.
Proof.
  induction s as [|c s IH]; [reflexivity |].
  cbn [String.compare]. unfold Ascii.compare. rewrite N.compare_refl. exact IH.
Qed.

Lemma string_compare_eq (s t : string) : String.compare s t = Eq <-> s = t.
Proof.
  split; [apply String.compare_eq_iff | intros ->; apply string_compare_refl].
Qed.

Lemma string_compare_lt_trans (s t u : string) :
  String.compare s t = Lt -> String.compare t u = Lt -> String.compare s u = Lt.
Proof.
  revert t u. induction s as [|a s IH]; intros [|b t] [|c u]; cbn [String.compare];
    try discriminate; try reflexivity.
  unfold Ascii.compare.
  destruct (N.compare_spec (N_of_ascii a) (N_of_ascii b)) as [Hab|Hab|Hab];
    try discriminate;
    destruct (N.compare_spec (N_of_ascii b) (N_of_ascii c)) as [Hbc|Hbc|Hbc];
    try discriminate; intros Hst Htu.
  - rewrite Hab, Hbc, N.compare_refl. eapply IH; eassumption.
  - rewrite Hab. apply N.compare_lt_iff in Hbc. rewrite Hbc. reflexivity.
  - rewrite <- Hbc. apply N.compare_lt_iff in Hab. rewrite Hab. reflexivity.
  - assert (Hac : (N_of_ascii a < N_of_ascii c)%N) by (eapply N.lt_trans; eassumption).
    apply N.compare_lt_iff in Hac. rewrite Hac. reflexivity.
Qed.

Lemma string_compare_gt_lt (s t : string) :
  String.compare s t = Gt <-> String.compare t s = Lt.
Proof.
  rewrite (String.compare_antisym s t).
  destruct (String.compare t s); cbn [CompOpp]; split; congruence.
Qed.

Section Comparator.

Variable T : Type.
Variable T_series_date_begin : T -> string.
Variable T_series_title : T -> string.

Local Abbreviation comp := (MALItemComparator T T_series_date_begin T_series_title).
Local Abbreviation season x := (substr (T_series_date_begin x) 0 7).

(** The comparator in words: the later season first, and within a season
    the smaller title first. *)
Lemma MALItemComparator_spec (l r : T) :
  comp l r = true
  <-> String.compare (season l) (season r) = Gt
      \/ (season l = season r
          /\ String.compare (T_series_title l) (T_series_title r) = Lt).
Proof.
  unfold MALItemComparator, string_compare.
  destruct (String.compare (season l) (season r)) eqn:Hseason; cbn [Z.eqb Z.gtb Z.compare].
  - apply String.compare_eq_iff in Hseason.
    destruct (String.compare (T_series_title l) (T_series_title r));
      cbn [Z.ltb Z.compare]; split; intro H;
      try discriminate; auto;
      destruct H as [H | [_ H]]; discriminate.
  - split; [discriminate |].
    intros [H | [H _]]; [discriminate |].
    rewrite H, string_compare_refl in Hseason. discriminate.
  - split; auto.
Qed.

Lemma MALItemComparator_irrefl (a : T) : comp a a = false.
Proof.
  destruct (comp a a) eqn:H; [| reflexivity].
  apply MALItemComparator_spec in H.
  rewrite !string_compare_refl in H.
  destruct H as [H | [_ H]]; discriminate.
Qed.

Lemma MALItemComparator_trans (a b c : T) :
  comp a b = true -> comp b c = true -> comp a c = true.
Proof.
  rewrite !MALItemComparator_spec, !string_compare_gt_lt.
  intros [Hab | [Hab Hab']] [Hbc | [Hbc Hbc']].
  - left. eapply string_compare_lt_trans; eassumption.
  - left. rewrite <- Hbc. exact Hab.
  - left. rewrite Hab. exact Hbc.
  - right. split; [congruence |].
    eapply string_compare_lt_trans; eassumption.
Qed.

(** Two entries are equivalent for the comparator exactly when they have
    the same season and the same title. *)
Lemma equiv_key_spec (a b : T) :
  equiv_key T comp a b = true
  <-> season a = season b /\ T_series_title a = T_series_title b.
Proof.
  unfold equiv_key. rewrite andb_true_iff, !negb_true_iff. split.
  - intros [Hab Hba].
    destruct (String.compare (season a) (season b)) eqn:Hseason.
    + apply String.compare_eq_iff in Hseason. split; [exact Hseason |].
      destruct (String.compare (T_series_title a) (T_series_title b)) eqn:Htitle.
      * apply String.compare_eq_iff in Htitle. exact Htitle.
      * assert (H : comp a b = true)
          by (apply MALItemComparator_spec; right; auto).
        congruence.
      * assert (H : comp b a = true).
        { apply MALItemComparator_spec. right.
          split; [congruence | apply string_compare_gt_lt; exact Htitle]. }
        congruence.
    + assert (H : comp b a = true).
      { apply MALItemComparator_spec. left.
        apply string_compare_gt_lt. exact Hseason. }
      congruence.
    + assert (H : comp a b = true) by (apply MALItemComparator_spec; left; exact Hseason).
      congruence.
  - intros [Hseason Htitle].
    split.
    + destruct (comp a b) eqn:H; [| reflexivity].
      apply MALItemComparator_spec in H.
      rewrite Hseason, Htitle, !string_compare_refl in H.
      destruct H as [H | [_ H]]; discriminate.
    + destruct (comp b a) eqn:H; [| reflexivity].
      apply MALItemComparator_spec in H.
      rewrite Hseason, Htitle, !string_compare_refl in H.
      destruct H as [H | [_ H]]; discriminate.
Qed.

End Comparator.

Section SetFacts.

Variable T : Type.
Variable comp : T -> T -> bool.
Hypothesis comp_irrefl : forall a, comp a a = false.
Hypothesis comp_trans : forall a b c, comp a b = true -> comp b c = true -> comp a c = true.

Local Abbreviation ordered := (StronglySorted (fun a b => comp a b = true)).

Lemma set_insert_In (x z : T) (s : list T) :
  In z (set_insert T comp x s) -> z = x \/ In z s.
Proof.
  induction s as [|y s IH]; cbn [set_insert].
  - intros [<- | []]. left. reflexivity.
  - destruct (comp x y); [| destruct (comp y x)]; cbn [In].
    + intros [<- | H]; auto.
    + intros [<- | H]; auto. destruct (IH H); auto.
    + auto.
Qed.

Lemma set_erase_In (x z : T) (s : list T) :
  In z (set_erase T comp x s) -> In z s.
Proof.
  induction s as [|y s IH]; cbn [set_erase]; [auto |].
  destruct (equiv_key T comp x y); cbn [In]; intuition.
Qed.

Lemma set_insert_ordered (x : T) (s : list T) :
  ordered s -> ordered (set_insert T comp x s).
Proof.
  induction 1 as [|y s Hs IH Hy]; cbn [set_insert].
  - constructor; constructor.
  - destruct (comp x y) eqn:Hxy; [| destruct (comp y x) eqn:Hyx].
    + constructor; [constructor; assumption |].
      constructor; [exact Hxy |].
      rewrite Forall_forall in *. intros z Hz. eapply comp_trans; eauto.
    + constructor; [exact IH |].
      rewrite Forall_forall in *. intros z Hz.
      destruct (set_insert_In _ _ _ Hz) as [-> | Hz']; auto.
    + constructor; assumption.
Qed.

Lemma set_erase_ordered (x : T) (s : list T) :
  ordered s -> ordered (set_erase T comp x s).
Proof.
  induction 1 as [|y s Hs IH Hy]; cbn [set_erase]; [constructor |].
  destruct (equiv_key T comp x y); [exact Hs |].
  constructor; [exact IH |].
  rewrite Forall_forall in *. intros z Hz. apply Hy.
  eapply set_erase_In; eassumption.
Qed.

(** Whatever is done to a set, its elements stay strictly ordered. *)
Lemma set_after_ordered (ops : list (set_operation T)) :
  ordered (set_after T comp ops).
Proof.
  unfold set_after.
  assert (H : forall s, ordered s -> ordered (fold_left (set_apply T comp) ops s)).
  { induction ops as [|op ops IH]; intros s Hs; [exact Hs |].
    cbn [fold_left]. apply IH.
    destruct op; cbn [set_apply];
      [apply set_insert_ordered | apply set_erase_ordered | constructor];
      exact Hs. }
  apply H. constructor.
Qed.

(** In an ordered list, an earlier element orders before a later one. *)
Lemma ordered_nth (s : list T) (i j : nat) (a b : T) :
  ordered s ->
  nth_error s i = Some a -> nth_error s j = Some b ->
  (i < j)%nat -> comp a b = true.
Proof.
  intros Hs. revert i j. induction Hs as [|y s Hs IH Hy]; intros i j Ha Hb Hij.
  - destruct i; discriminate.
  - destruct j as [|j]; [lia |]. cbn [nth_error] in Hb.
    destruct i as [|i]; cbn [nth_error] in Ha.
    + injection Ha as <-. rewrite Forall_forall in Hy.
      apply Hy. eapply nth_error_In; eassumption.
    + apply (IH i j); auto. lia.
Qed.

(** Hence the position of two elements follows their order... *)
Lemma ordered_position (s : list T) (i j : nat) (a b : T) :
  ordered s ->
  nth_error s i = Some a -> nth_error s j = Some b ->
  comp a b = true -> (i < j)%nat.
Proof.
  intros Hs Ha Hb Hab.
  destruct (Nat.lt_trichotomy i j) as [Hlt | [Heq | Hgt]]; [exact Hlt | |].
  - subst j. rewrite Ha in Hb. injection Hb as <-.
    rewrite comp_irrefl in Hab. discriminate.
  - pose proof (ordered_nth s j i b a Hs Hb Ha Hgt) as Hba.
    pose proof (comp_trans _ _ _ Hab Hba) as Haa.
    rewrite comp_irrefl in Haa. discriminate.
Qed.

(** ... and two equivalent elements are one and the same element. *)
Lemma ordered_equiv_same (s : list T) (i j : nat) (a b : T) :
  ordered s ->
  nth_error s i = Some a -> nth_error s j = Some b ->
  equiv_key T comp a b = true -> i = j.
Proof.
  intros Hs Ha Hb Hequiv.
  unfold equiv_key in Hequiv. apply andb_true_iff in Hequiv.
  rewrite !negb_true_iff in Hequiv. destruct Hequiv as [Hab Hba].
  destruct (Nat.lt_trichotomy i j) as [Hlt | [Heq | Hgt]]; [| exact Heq |].
  - rewrite (ordered_nth s i j a b Hs Ha Hb Hlt) in Hab. discriminate.
  - rewrite (ordered_nth s j i b a Hs Hb Ha Hgt) in Hba. discriminate.
Qed.

End SetFacts.

Lemma anime_comparator_irrefl (a : Anime) : anime_comparator a a = false.
Proof. apply MALItemComparator_irrefl. Qed.

Lemma anime_comparator_trans (a b c : Anime) :
  anime_comparator a b = true -> anime_comparator b c = true ->
  anime_comparator a c = true.
Proof. apply MALItemComparator_trans. Qed.

(** The comparator reads nothing but the season and the title. *)
Lemma anime_comparator_congr (x y z : Anime) :
  substr (series_date_begin x) 0 7 = substr (series_date_begin y) 0 7 ->
  series_title x = series_title y ->
  anime_comparator z x = anime_comparator z y
  /\ anime_comparator x z = anime_comparator y z.
Proof.
  intros Hseason Htitle. unfold anime_comparator, MALItemComparator.
  rewrite Hseason, Htitle. split; reflexivity.
Qed.

(** Duplicate suppression: inserting an entry equivalent to one that the
    collection holds leaves the collection as it is. *)
Lemma insert_equivalent_is_dropped (x y : Anime) (s : list Anime) :
  StronglySorted (fun a b => anime_comparator a b = true) s ->
  In y s ->
  equiv_key Anime anime_comparator x y = true ->
  set_insert Anime anime_comparator x s = s.
Proof.
  intros Hs Hy Hequiv.
  pose proof Hequiv as Hkeys. apply equiv_key_spec in Hkeys.
  destruct Hkeys as [Hseason Htitle].
  unfold equiv_key in Hequiv. apply andb_true_iff in Hequiv.
  rewrite !negb_true_iff in Hequiv. destruct Hequiv as [Hxy Hyx].
  induction Hs as [|z s Hs IH Hz]; [destruct Hy |].
  cbn [set_insert]. destruct Hy as [-> | Hy].
  - rewrite Hxy, Hyx. reflexivity.
  - rewrite Forall_forall in Hz. pose proof (Hz y Hy) as Hzy.
    destruct (anime_comparator_congr x y z Hseason Htitle) as [Hzx Hxz].
    rewrite Hxz, Hzx, Hzy.
    destruct (anime_comparator y z) eqn:Hyz.
    + pose proof (anime_comparator_trans _ _ _ Hyz Hzy) as Hyy.
      rewrite anime_comparator_irrefl in Hyy. discriminate.
    + rewrite (IH Hy). reflexivity.
Qed.

(** C5: of two entries, the one whose start date has the greater
    year-month prefix (its first seven characters) orders first, and of two
    entries with the same prefix the one with the smaller title orders
    first: the comparator puts it before the other and not the other before
    it; a collection into which the two are inserted, in either order,
    iterates over it first; and in any collection that holds both,
    whatever insertions and removals built it, it sits at the smaller
    position. *)
Theorem collection_order (a b : Anime) :
  String.compare (String.substring 0 7 (series_date_begin a))
                 (String.substring 0 7 (series_date_begin b)) = Gt
  \/ (String.substring 0 7 (series_date_begin a)
      = String.substring 0 7 (series_date_begin b)
      /\ String.compare (series_title a) (series_title b) = Lt) ->
  anime_comparator a b = true
  /\ anime_comparator b a = false
  /\ set_after Anime anime_comparator [op_insert a; op_insert b] = [a; b]
  /\ set_after Anime anime_comparator [op_insert b; op_insert a] = [a; b]
  /\ forall (ops : list (set_operation Anime)) (i j : nat),
       nth_error (set_after Anime anime_comparator ops) i = Some a ->
       nth_error (set_after Anime anime_comparator ops) j = Some b ->
       (i < j)%nat.
Proof.
  intros Hkeys.
  assert (Hab : anime_comparator a b = true)
    by (apply MALItemComparator_spec; exact Hkeys).
  assert (Hba : anime_comparator b a = false).
  { destruct (anime_comparator b a) eqn:Hba; [| reflexivity].
    pose proof (anime_comparator_trans _ _ _ Hab Hba) as Haa.
    rewrite anime_comparator_irrefl in Haa. discriminate. }
  split; [exact Hab |]. split; [exact Hba |].
  split; [unfold set_after; cbn [fold_left set_apply set_insert];
          rewrite Hba, Hab; reflexivity |].
  split; [unfold set_after; cbn [fold_left set_apply set_insert];
          rewrite Hab; reflexivity |].
  intros ops i j Ha Hb.
  eapply (ordered_position Anime anime_comparator
            anime_comparator_irrefl anime_comparator_trans);
    eauto using set_after_ordered, anime_comparator_trans.
Qed.

(** Two entries of April 2020, where the title decides although the days
    differ, and two entries of different seasons, where the season decides
    against the titles. *)
Lemma collection_order_witness :
  let abc := with_series_title "Abc" (with_series_date_begin "2020-04-11" Anime_new) in
  let zed := with_series_title "Zed" (with_series_date_begin "2020-04-25" Anime_new) in
  let spring_2020 := with_series_title "Kaguya" (with_series_date_begin "2020-04-11" Anime_new) in
  let autumn_2019 := with_series_title "Beastars" (with_series_date_begin "2019-10-10" Anime_new) in
  (anime_comparator abc zed = true
   /\ anime_comparator zed abc = false
   /\ set_after Anime anime_comparator [op_insert abc; op_insert zed] = [abc; zed]
   /\ set_after Anime anime_comparator [op_insert zed; op_insert abc] = [abc; zed]
   /\ forall (ops : list (set_operation Anime)) (i j : nat),
        nth_error (set_after Anime anime_comparator ops) i = Some abc ->
        nth_error (set_after Anime anime_comparator ops) j = Some zed ->
        (i < j)%nat)
  /\ (anime_comparator spring_2020 autumn_2019 = true
      /\ anime_comparator autumn_2019 spring_2020 = false
      /\ set_after Anime anime_comparator [op_insert spring_2020; op_insert autumn_2019]
         = [spring_2020; autumn_2019]
      /\ set_after Anime anime_comparator [op_insert autumn_2019; op_insert spring_2020]
         = [spring_2020; autumn_2019]
      /\ forall (ops : list (set_operation Anime)) (i j : nat),
           nth_error (set_after Anime anime_comparator ops) i = Some spring_2020 ->
           nth_error (set_after Anime anime_comparator ops) j = Some autumn_2019 ->
           (i < j)%nat).
Proof.
  intros abc zed spring_2020 autumn_2019. split.
  - apply (collection_order abc zed).
    right. split; reflexivity.
  - apply (collection_order spring_2020 autumn_2019).
    left. reflexivity.
Defined.

(** C6: in a collection, two entries that compare as equal (the same
    year-month prefix of the start date and the same title) are one and the
    same entry of the set, hence have the same catalog id: the set never
    holds two equivalent entries, whatever insertions and removals built
    it. *)
Theorem collection_entries_distinct
        (ops : list (set_operation Anime)) (i j : nat) (a b : Anime) :
  nth_error (set_after Anime anime_comparator ops) i = Some a ->
  nth_error (set_after Anime anime_comparator ops) j = Some b ->
  substr (series_date_begin a) 0 7 = substr (series_date_begin b) 0 7 ->
  series_title a = series_title b ->
  equiv_key Anime anime_comparator a b = true
  /\ i = j /\ a = b /\ series_itemdb_id a = series_itemdb_id b.
Proof.
  intros Ha Hb Hseason Htitle.
  assert (Hequiv : equiv_key Anime anime_comparator a b = true)
    by (apply equiv_key_spec; auto).
  split; [exact Hequiv |].
  assert (Hij : i = j).
  { eapply (ordered_equiv_same Anime anime_comparator);
      eauto using set_after_ordered, anime_comparator_trans. }
  subst j. rewrite Ha in Hb. injection Hb as <-. auto.
Qed.

Lemma collection_entries_distinct_witness :
  let first := with_series_itemdb_id 5
                 (with_series_title "Foo" (with_series_date_begin "2020-04-11" Anime_new)) in
  let second := with_series_itemdb_id 7
                  (with_series_title "Foo" (with_series_date_begin "2020-04-25" Anime_new)) in
  let ops := [op_insert first; op_insert second] in
  set_after Anime anime_comparator ops = [first]
  /\ equiv_key Anime anime_comparator first first = true
  /\ 0%nat = 0%nat /\ first = first
  /\ series_itemdb_id first = series_itemdb_id first.
Proof.
  intros first second ops. split; [reflexivity |].
  apply (collection_entries_distinct ops 0 0 first first); reflexivity.
Defined.

(** ** Searching a text *)

Lemma string_app_assoc (s t u : string) : (s ++ t) ++ u = s ++ t ++ u.
Proof.
  induction s as [|c s IH]; [reflexivity |].
  cbn [append]. rewrite IH. reflexivity.
Qed.

Lemma string_app_nil (s : string) : s ++ EmptyString = s.
Proof.
  induction s as [|c s IH]; [reflexivity |].
  cbn [append]. rewrite IH. reflexivity.
Qed.

Lemma differs_starts_with (p u t : string) :
  differs p u = true -> starts_with p (u ++ t) = false.
Proof.
  revert u. induction p as [|a p IH]; intros [|b u]; cbn [differs];
    try discriminate.
  cbn [append starts_with].
  destruct (Ascii.eqb a b); [cbn [andb]; apply IH | reflexivity].
Qed.

Lemma find_after_never_starts (p s t : string) :
  never_starts p s = true -> find_after p (s ++ t) = find_after p t.
Proof.
  induction s as [|b s IH]; [reflexivity |].
  cbn [never_starts]. intro H. apply andb_true_iff in H. destruct H as [Hd Hs].
  change (String b s ++ t) with (String b (s ++ t)).
  cbn [find_after].
  change (String b (s ++ t)) with (String b s ++ t) at 1.
  rewrite (differs_starts_with _ _ t Hd). apply IH, Hs.
Qed.

Lemma find_before_never_starts (p s t : string) :
  never_starts p s = true ->
  find_before p (s ++ t) = option_map (append s) (find_before p t).
Proof.
  induction s as [|b s IH].
  - intros _. cbn [append]. destruct (find_before p t); reflexivity.
  - cbn [never_starts]. intro H. apply andb_true_iff in H. destruct H as [Hd Hs].
    change (String b s ++ t) with (String b (s ++ t)).
    cbn [find_before].
    change (String b (s ++ t)) with (String b s ++ t) at 1.
    rewrite (differs_starts_with _ _ t Hd), (IH Hs).
    destruct (find_before p t); reflexivity.
Qed.

Lemma starts_with_app (p t : string) : starts_with p (p ++ t) = true.
Proof.
  induction p as [|a p IH]; [reflexivity |].
  cbn [append starts_with]. rewrite Ascii.eqb_refl. exact IH.
Qed.

Lemma skip_app (p t : string) : skip (String.length p) (p ++ t) = t.
Proof.
  induction p as [|a p IH]; [destruct t; reflexivity | exact IH].
Qed.

Lemma find_after_here (p t : string) : find_after p (p ++ t) = Some t.
Proof.
  destruct p as [|a p].
  - destruct t; reflexivity.
  - change (String a p ++ t) with (String a (p ++ t)). cbn [find_after].
    change (String a (p ++ t)) with (String a p ++ t).
    rewrite starts_with_app, skip_app. reflexivity.
Qed.

Lemma find_before_here (p t : string) : find_before p (p ++ t) = Some EmptyString.
Proof.
  destruct p as [|a p].
  - destruct t; reflexivity.
  - change (String a p ++ t) with (String a (p ++ t)). cbn [find_before].
    change (String a (p ++ t)) with (String a p ++ t).
    rewrite starts_with_app. reflexivity.
Qed.

(** A text in which the first character of [p] does not occur. *)
Lemma clear_of_never_starts (c : ascii) (p s : string) :
  clear_of c s = true -> never_starts (String c p) s = true.
Proof.
  induction s as [|b s IH]; [reflexivity |].
  cbn [clear_of never_starts differs]. intro H.
  apply andb_true_iff in H. destruct H as [Hc Hs].
  apply negb_true_iff in Hc. rewrite Hc. cbn [andb]. apply IH, Hs.
Qed.

Lemma clear_of_app (c : ascii) (s t : string) :
  clear_of c (s ++ t) = clear_of c s && clear_of c t.
Proof.
  induction s as [|b s IH]; [reflexivity |].
  cbn [append clear_of]. rewrite IH, andb_assoc. reflexivity.
Qed.

(** ** The texts [serialize] writes *)

Lemma clear_of_string_of_uint (d : Decimal.uint) :
  clear_of "<" (NilEmpty.string_of_uint d) = true.
Proof. induction d; cbn [NilEmpty.string_of_uint clear_of]; auto. Qed.

(** A number in decimal has no [<]. *)
Lemma clear_of_to_string (z : Z) : clear_of "<" (to_string z) = true.
Proof.
  unfold to_string, NilZero.string_of_int, NilZero.string_of_uint.
  destruct (Z.to_int z) as [d | d]; destruct d; try reflexivity;
    cbn [clear_of Ascii.eqb Bool.eqb negb andb];
    match goal with
    | |- clear_of _ (NilEmpty.string_of_uint ?u) = true =>
        apply (clear_of_string_of_uint u)
    end.
Qed.

Lemma clear_of_two_digits (z : Z) : clear_of "<" (two_digits z) = true.
Proof.
  unfold two_digits. destruct (z <? 10).
  - change ("0" ++ to_string z) with (String "0" (to_string z)).
    cbn [clear_of]. apply clear_of_to_string.
  - apply clear_of_to_string.
Qed.

(** A number in decimal has at least one character. *)
Lemma to_string_nonempty (z : Z) : (0 <? String.length (to_string z))%nat = true.
Proof.
  unfold to_string, NilZero.string_of_int, NilZero.string_of_uint.
  destruct (Z.to_int z) as [d | d]; destruct d; reflexivity.
Qed.

(** Reading back a number written in decimal. *)
Lemma stoll_to_string (z : Z) : stoll (to_string z) = Some z.
Proof.
  unfold stoll, to_string.
  rewrite NilZero.isi.
  - cbn [option_map]. rewrite DecimalZ.of_to. reflexivity.
  - destruct z as [|p|p]; cbn [Z.to_int]; try discriminate.
    intro H. injection H as H. exact (DecimalPos.Unsigned.to_uint_nonnil p H).
  - destruct z as [|p|p]; cbn [Z.to_int]; try discriminate.
    intro H. injection H as H. exact (DecimalPos.Unsigned.to_uint_nonnil p H).
Qed.

Section SerializeFacts.

Variable set_parse : Glib_Date -> string -> Glib_Date.

(** The format of the dates, conversion by conversion. *)
Lemma format_string_mdY (d : Glib_Date) :
  format_string d "%m%d%Y"
  = two_digits (date_month d) ++ two_digits (date_day d) ++ to_string (date_year d).
Proof. cbn [format_string]. rewrite string_app_nil. reflexivity. Qed.

Lemma clear_of_date_text (stored : string) :
  clear_of "<" (date_text set_parse stored) = true.
Proof.
  unfold date_text. destruct (valid _); [| reflexivity].
  rewrite format_string_mdY, !clear_of_app, !clear_of_two_digits, clear_of_to_string.
  reflexivity.
Qed.

(** The output, element by element. *)
Lemma serialize_elements (r : Anime) :
  serialize set_parse r
  = xml_declaration_entry ++ elements_text (entry_elements set_parse r) ++ "</entry>".
Proof.
  unfold serialize, entry_elements. f_equal.
  cbn [elements_text element_text fst snd append].
  repeat (rewrite ?string_app_assoc; cbn [append]).
  reflexivity.
Qed.

End SerializeFacts.

Ltac plain_text :=
  first [ apply clear_of_never_starts;
          first [ apply clear_of_to_string | apply clear_of_date_text ]
        | reflexivity ].


(** ** Reading back what [serialize] writes *)

Ltac loop_simpl :=
  unfold core, print, on_element, on_end_element;
  cbn [anime field prev_field entry_after_anime seen_anime seen_entry
       res cerr fst snd].

Section RoundTrip.

Variable parse_html_entities : string -> string.
Variable setters : AnimeSetters.

Local Abbreviation process := (process_node parse_html_entities setters).
Local Abbreviation run := (read_loop parse_html_entities setters).
Local Abbreviation store := (store_field parse_html_entities setters).

(** After a closing tag no field is current. *)
Lemma end_element_field (st : loop_state) (name : string) :
  (0 <? String.length name)%nat = true ->
  field (process st (EndElement name)) = FIELDNONE.
Proof.
  intro Hname. unfold process_node.
  cbn [EndElement ConstName ConstValue NodeType xmlchar_to_str].
  rewrite Hname. reflexivity.
Qed.

Lemma field_nodes_field (st : loop_state) (e : string * string) :
  (0 <? String.length (fst e))%nat = true ->
  field (run st (field_nodes e)) = FIELDNONE.
Proof.
  intro Hname. unfold field_nodes.
  rewrite read_loop_cons, read_loop_app. cbn [read_loop fold_left].
  apply end_element_field, Hname.
Qed.

(** An element of the name table inside an item. *)
Lemma known_field (st : loop_state) (e : string * string) :
  item_field_name (fst e) = true ->
  let st' := run st (field_nodes e) in
  anime st' = store (anime st) (logical_field e)
  /\ res st' = res st /\ field st' = FIELDNONE.
Proof.
  intros Hname st'. subst st'.
  destruct (core_inv _ _ _ _ _ _ (run_field parse_html_entities setters st e Hname))
    as (Ha & _ & _ & _ & Hres).
  repeat split; auto.
  apply field_nodes_field.
  unfold item_field_name in Hname.
  destruct (field_map_find (fst e)) eqn:Hf; [| discriminate].
  eapply field_map_find_nonempty; eassumption.
Qed.

(** The opening tag of an element of unknown name. *)
Lemma unknown_start (st : loop_state) (name : string) :
  (0 <? String.length name)%nat = true ->
  field_map_find name = None ->
  let st' := process st (StartElement name) in
  anime st' = anime st /\ res st' = res st /\ field st' = field st.
Proof.
  intros Hname Hf. unfold process_node.
  cbn [StartElement ConstName ConstValue NodeType xmlchar_to_str].
  rewrite Hname. unfold resolve_name. rewrite Hf.
  repeat split; reflexivity.
Qed.

(** The closing tag of an element of unknown name, met while the current
    field is not a wrapper. *)
Lemma unknown_end (st : loop_state) (name : string) :
  (0 <? String.length name)%nat = true ->
  field_map_find name = None ->
  FIELDS_eqb (field st) ENTRY = false ->
  FIELDS_eqb (field st) ANIME = false ->
  let st' := process st (EndElement name) in
  anime st' = anime st /\ res st' = res st.
Proof.
  intros Hname Hf Hentry Hanime. unfold process_node.
  cbn [EndElement ConstName ConstValue NodeType xmlchar_to_str].
  rewrite Hname. unfold resolve_name. rewrite Hf.
  loop_simpl. rewrite Hentry, Hanime, !andb_false_r.
  split; reflexivity.
Qed.

(** A text node. *)
Lemma text_step (st : loop_state) (text : string) :
  (0 <? String.length text)%nat = true ->
  let st' := process st (TextNode text) in
  anime st' = store (anime st) (Some (field st), text)
  /\ res st' = res st /\ field st' = FIELDTEXT.
Proof.
  intros Htext st'. subst st'.
  destruct (text_node parse_html_entities setters st text) as [H | H];
    [| congruence].
  destruct (core_inv _ _ _ _ _ _ H) as (Ha & _ & _ & _ & Hres).
  split; [exact Ha | split; [exact Hres |]].
  rewrite process_text. unfold on_text. loop_simpl.
  rewrite FIELDS_eqb_refl.
  destruct (0 <? String.length (parse_html_entities text))%nat;
    [destruct (member_map_find setters _) |]; reflexivity.
Qed.

Lemma store_no_setter (a : Anime) (f : FIELDS) (text : string) :
  member_map_find setters f = None -> store a (Some f, text) = a.
Proof.
  intro H. unfold store_field. cbn [fst snd]. rewrite H.
  destruct (_ && _); reflexivity.
Qed.

(** An element of unknown name: nothing is stored and nothing is
    finalized, provided that the field that was current before it has no
    setter and the element has a text, or that no field was current. *)
Lemma inert_field (st : loop_state) (e : string * string) :
  unknown_name (fst e) = true ->
  ((0 <? String.length (snd e))%nat = true
   /\ member_map_find setters (field st) = None)
  \/ field st = FIELDNONE ->
  let st' := run st (field_nodes e) in
  anime st' = anime st /\ res st' = res st /\ field st' = FIELDNONE.
Proof.
  destruct e as [name text]. cbn [fst snd]. unfold unknown_name.
  intros Hname Hbefore.
  apply andb_true_iff in Hname. destruct Hname as [Hname Hunknown].
  destruct (field_map_find name) eqn:Hf; [discriminate |]. clear Hunknown.
  split; [| split; [| apply (field_nodes_field st (name, text) Hname)]];
    unfold field_nodes; cbn [fst snd];
    destruct (unknown_start st name Hname Hf) as (Ha1 & Hres1 & Hfield1);
    (destruct (0 <? String.length text)%nat eqn:Htext;
     cbn [app read_loop fold_left];
     [ destruct (text_step (process st (StartElement name)) text Htext)
         as (Ha2 & Hres2 & Hfield2);
       destruct (unknown_end (process (process st (StartElement name)) (TextNode text))
                             name Hname Hf) as (Ha3 & Hres3);
       [ rewrite Hfield2; reflexivity | rewrite Hfield2; reflexivity | ];
       assert (Hsetter : member_map_find setters (field st) = None)
         by (destruct Hbefore as [[_ H] | H]; [exact H | rewrite H; reflexivity]);
       rewrite ?Ha3, ?Hres3, ?Ha2, ?Hres2, ?Hfield1, ?store_no_setter by exact Hsetter;
       assumption
     | destruct Hbefore as [[H _] | H]; [discriminate H |];
       destruct (unknown_end (process st (StartElement name)) name Hname Hf)
         as (Ha3 & Hres3);
       [ rewrite Hfield1, H; reflexivity | rewrite Hfield1, H; reflexivity | ];
       rewrite ?Ha3, ?Hres3; assumption ]).
Qed.

Lemma inert_fields (es : list (string * string)) (st : loop_state) :
  forallb (fun e => unknown_name (fst e)) es = true ->
  field st = FIELDNONE ->
  let st' := run st (flat_map field_nodes es) in
  anime st' = anime st /\ res st' = res st /\ field st' = FIELDNONE.
Proof.
  revert st. induction es as [|e es IH]; intros st Hes Hfield.
  - repeat split; auto.
  - cbn [forallb] in Hes. apply andb_true_iff in Hes. destruct Hes as [He Hes].
    cbn [flat_map]. rewrite read_loop_app.
    destruct (inert_field st e He (or_intror Hfield)) as (Ha & Hres & Hf).
    destruct (IH _ Hes Hf) as (Ha' & Hres' & Hf').
    cbn zeta. rewrite Ha', Hres', Ha, Hres. auto.
Qed.

End RoundTrip.

Section RoundTripTheorem.

Variable parse_html_entities : string -> string.
Variable setters : AnimeSetters.
Variable set_parse : Glib_Date -> string -> Glib_Date.

Local Abbreviation run := (read_loop parse_html_entities setters).
Local Abbreviation store := (store_field parse_html_entities setters).

(** The elements of the output that come after [score]: none of their
    names is in the name table. *)
Lemma entry_elements_split (r : Anime) :
  exists rest : list (string * string),
    entry_elements set_parse r
    = ("episode", to_string (episodes r))
      :: ("status", to_string (status r))
      :: ("score", to_string (score r)) :: rest
    /\ forallb (fun e => unknown_name (fst e)) rest = true.
Proof. eexists. split; reflexivity. Qed.

Lemma entry_nodes_split (r : Anime) (rest : list (string * string)) :
  entry_elements set_parse r
  = ("episode", to_string (episodes r))
    :: ("status", to_string (status r))
    :: ("score", to_string (score r)) :: rest ->
  shape_A [entry_elements set_parse r]
  = ([StartElement "anime"; StartElement "entry"]
     ++ field_nodes ("episode", to_string (episodes r))
     ++ field_nodes ("status", to_string (status r))
     ++ field_nodes ("score", to_string (score r))
     ++ flat_map field_nodes rest
     ++ [EndElement "entry"; EndElement "anime"])%list.
Proof.
  intro Hels. unfold shape_A, document_nodes, item_nodes.
  rewrite Hels. cbn [flat_map]. rewrite app_nil_r.
  cbn [app]. do 2 f_equal. rewrite <- !app_assoc. reflexivity.
Qed.

(** A number written by [serialize] and cleaned, handed to a setter. *)
Lemma store_number (a : Anime) (name : string) (f : FIELDS)
      (setter : Anime -> string -> Anime) (z : Z) :
  (forall s, parse_html_entities s = EmptyString -> s = EmptyString) ->
  field_map_find name = Some f ->
  member_map_find setters f = Some setter ->
  store a (logical_field (name, to_string z))
  = setter a (parse_html_entities (to_string z)).
Proof.
  intros Hclean Hf Hsetter. unfold store_field, logical_field.
  cbn [fst snd]. rewrite Hf, Hsetter, to_string_nonempty.
  destruct (parse_html_entities (to_string z)) eqn:Hcleaned; [| reflexivity].
  apply Hclean in Hcleaned. pose proof (to_string_nonempty z) as H.
  rewrite Hcleaned in H. discriminate H.
Qed.

(** The state after the output of [serialize], inside [<anime>], has been
    read up to and including [</entry>] and [</anime>]. *)
Lemma round_trip_records (r : Anime) :
  (forall s, parse_html_entities s = EmptyString -> s = EmptyString) ->
  res (run initial_state (shape_A [entry_elements set_parse r]))
  = [set_score setters
       (set_series_status setters Anime_new
          (parse_html_entities (to_string (status r))))
       (parse_html_entities (to_string (score r)))].
Proof.
  intro Hclean.
  destruct (entry_elements_split r) as (rest & Hels & Hrest).
  rewrite (entry_nodes_split r rest Hels).
  rewrite !read_loop_app.
  set (s2 := run initial_state [StartElement "anime"; StartElement "entry"]).
  assert (Hs2 : anime s2 = Anime_new /\ res s2 = [] /\ field s2 = ENTRY
                /\ entry_after_anime s2 = true)
    by (repeat split; reflexivity).
  destruct Hs2 as (Ha2 & Hres2 & Hfield2 & Heaa2).
  set (s3 := run s2 (field_nodes ("episode", to_string (episodes r)))).
  destruct (inert_field parse_html_entities setters s2
              ("episode", to_string (episodes r)) eq_refl) as (Ha3 & Hres3 & Hfield3).
  { left. split; [apply to_string_nonempty | rewrite Hfield2; reflexivity]. }
  fold s3 in Ha3, Hres3, Hfield3.
  set (s4 := run s3 (field_nodes ("status", to_string (status r)))).
  destruct (known_field parse_html_entities setters s3
              ("status", to_string (status r)) eq_refl) as (Ha4 & Hres4 & Hfield4).
  fold s4 in Ha4, Hres4, Hfield4.
  set (s5 := run s4 (field_nodes ("score", to_string (score r)))).
  destruct (known_field parse_html_entities setters s4
              ("score", to_string (score r)) eq_refl) as (Ha5 & Hres5 & Hfield5).
  fold s5 in Ha5, Hres5, Hfield5.
  set (s6 := run s5 (flat_map field_nodes rest)).
  destruct (inert_fields parse_html_entities setters rest s5 Hrest Hfield5)
    as (Ha6 & Hres6 & Hfield6).
  fold s6 in Ha6, Hres6, Hfield6.
  assert (Heaa6 : entry_after_anime s6 = true).
  { assert (Hle : flags_le s2 s6).
    { unfold s6, s5, s4, s3.
      do 4 (eapply flags_le_trans; [| apply read_loop_flags]).
      apply flags_le_refl. }
    apply Hle, Heaa2. }
  cbn [read_loop fold_left].
  pose proof (end_element_core parse_html_entities setters s6
                "entry" ENTRY eq_refl) as Hentry.
  unfold wrapper_field in Hentry. rewrite Heaa6 in Hentry.
  cbn [FIELDS_eqb FIELDS_value Z.eqb] in Hentry.
  destruct (core_inv _ _ _ _ _ _ Hentry) as (_ & Heaa7 & _ & _ & Hres7).
  pose proof (end_element_core parse_html_entities setters
                (process_node parse_html_entities setters s6 (EndElement "entry"))
                "anime" ANIME eq_refl) as Hanime.
  unfold wrapper_field in Hanime. rewrite Heaa7 in Hanime.
  cbn [FIELDS_eqb FIELDS_value Z.eqb] in Hanime.
  destruct (core_inv _ _ _ _ _ _ Hanime) as (_ & _ & _ & _ & Hres8).
  unfold read_loop in *. rewrite Hres8, Hres7.
  rewrite Hres6, Hres5, Hres4, Hres3, Hres2.
  rewrite Ha6, Ha5, Ha4, Ha3, Ha2.
  rewrite (store_number _ "status" SERIESSTATUS (set_series_status setters))
    by (auto; reflexivity).
  rewrite (store_number _ "score" MYSCORE (set_score setters))
    by (auto; reflexivity).
  reflexivity.
Qed.

End RoundTripTheorem.

(** With setters that store the decimal value of their text, the record
    read back has the score of the record written, the user status of the
    record written as the status of its series, and nothing else. *)
Lemma round_trip_spec_setters
      (set_parse : Glib_Date -> string -> Glib_Date) (r : Anime) (last : Z) :
  fst (deserialize_reader (fun s => s) spec_setters
         {| reader_nodes := shape_A [entry_elements set_parse r];
            reader_last := last |})
  = [with_score (score r) (with_series_status (status r) Anime_new)].
Proof.
  rewrite deserialize_reader_res. cbn [reader_nodes].
  rewrite round_trip_records by auto.
  cbn [spec_setters set_score set_series_status].
  unfold set_number. rewrite !stoll_to_string. reflexivity.
Qed.

(** *** The texts of the output are plain *)

Lemma all_chars_app (p : ascii -> bool) (s t : string) :
  all_chars p (s ++ t) = all_chars p s && all_chars p t.
Proof.
  induction s as [|c s IH]; [reflexivity |].
  cbn [append all_chars]. rewrite IH, andb_assoc. reflexivity.
Qed.

Lemma plain_string_of_uint (d : Decimal.uint) :
  all_chars plain_char (NilEmpty.string_of_uint d) = true.
Proof. induction d; cbn [NilEmpty.string_of_uint all_chars]; auto. Qed.

Lemma plain_to_string (z : Z) : all_chars plain_char (to_string z) = true.
Proof.
  unfold to_string, NilZero.string_of_int, NilZero.string_of_uint.
  destruct (Z.to_int z) as [d | d]; destruct d; try reflexivity;
    match goal with
    | |- all_chars _ (NilEmpty.string_of_uint ?u) = true =>
        apply (plain_string_of_uint u)
    | |- all_chars _ (String "-" (NilEmpty.string_of_uint ?u)) = true =>
        apply (plain_string_of_uint u)
    end.
Qed.

(** A numeral starts with a digit or a sign: it is not made of blanks. *)
Lemma to_string_not_blank (z : Z) :
  all_chars (fun c => Ascii.eqb c " ") (to_string z) = false.
Proof.
  unfold to_string, NilZero.string_of_int, NilZero.string_of_uint.
  destruct (Z.to_int z) as [d | d]; destruct d; reflexivity.
Qed.

Lemma plain_body_to_string (z : Z) : plain_body (to_string z) = true.
Proof.
  unfold plain_body. rewrite plain_to_string, to_string_not_blank.
  destruct (to_string z); reflexivity.
Qed.

Lemma plain_body_app (s t : string) :
  plain_body s = true -> all_chars plain_char t = true ->
  s <> EmptyString -> plain_body (s ++ t) = true.
Proof.
  unfold plain_body. intros Hs Ht Hnonempty.
  destruct s as [|c s]; [contradiction Hnonempty; reflexivity |].
  apply andb_true_iff in Hs. destruct Hs as [Hplain Hblank].
  apply negb_true_iff in Hblank.
  cbn [append]. change (String c (s ++ t)) with (String c s ++ t).
  rewrite !all_chars_app, Hplain, Ht, Hblank. reflexivity.
Qed.

Lemma plain_body_two_digits (z : Z) :
  plain_body (two_digits z) = true /\ two_digits z <> EmptyString.
Proof.
  unfold two_digits. destruct (z <? 10).
  - split; [| discriminate].
    change ("0" ++ to_string z) with (String "0" (to_string z)).
    unfold plain_body. cbn [all_chars]. rewrite plain_to_string. reflexivity.
  - split; [apply plain_body_to_string |].
    pose proof (to_string_nonempty z) as H.
    destruct (to_string z); [discriminate H | discriminate].
Qed.

Lemma plain_body_date_text
      (set_parse : Glib_Date -> string -> Glib_Date) (stored : string) :
  plain_body (date_text set_parse stored) = true.
Proof.
  unfold date_text. destruct (valid _); [| reflexivity].
  rewrite format_string_mdY.
  destruct (plain_body_two_digits (date_month (set_parse Glib_Date_new stored)))
    as [Hm Hnonempty].
  apply plain_body_app; [exact Hm | | exact Hnonempty].
  rewrite all_chars_app, plain_to_string, andb_true_r.
  destruct (plain_body_two_digits (date_day (set_parse Glib_Date_new stored)))
    as [Hd _].
  unfold plain_body in Hd. apply andb_true_iff in Hd. apply Hd.
Qed.

(** For a record with plain tags, the text of every element that
    [serialize] writes is plain: the reader reports it as one text node, or
    as no node when it is empty. *)
Lemma plain_entry_elements
      (set_parse : Glib_Date -> string -> Glib_Date) (r : Anime) :
  plain_tags (tags r) = true ->
  Forall (fun e => plain_body (snd e) = true) (entry_elements set_parse r).
Proof.
  unfold plain_tags. intro Htags. apply andb_true_iff in Htags.
  destruct Htags as [_ Hjoined].
  unfold entry_elements.
  repeat (apply Forall_cons;
          [ cbn [snd];
            first [ apply plain_body_to_string
                  | apply plain_body_date_text
                  | exact Hjoined
                  | destruct (enable_reconsuming r); reflexivity
                  | reflexivity ] |]).
  apply Forall_nil.
Qed.

(** C4, as stated, fails: the record with 3 watched episodes and user
    status 2 is written by [serialize] with [<episode>3</episode>] and
    [<status>2</status>]; read back inside [<anime>], the watched episodes
    are lost ([episode] is not a name of the table) and the status lands in
    the status of the series (which is what [status] stands for in the
    table), the user status staying unset. *)
Lemma round_trip_loses_user_fields :
  let r := with_status 2 (with_episodes 3 Anime_new) in
  exists (nodes : list xml_node) (back : Anime),
    round_trip_nodes (fun d _ => d) r = Some nodes
    /\ fst (deserialize_reader (fun s => s) spec_setters
              {| reader_nodes := nodes; reader_last := 0 |})
       = [back]
    /\ episodes r = 3 /\ episodes back = 0
    /\ status r = 2 /\ status back = 0 /\ series_status back = 2
    /\ back <> r.
Proof.
  intro r.
  exists (shape_A [entry_elements (fun d _ => d) r]).
  exists (with_score 0 (with_series_status 2 Anime_new)).
  split; [reflexivity |].
  split; [apply round_trip_spec_setters |].
  repeat split; try reflexivity. discriminate.
Qed.

(** C4 (amended): for a record whose tags are plain text (printable ASCII
    characters other than [<], [&] and [>], not only blanks), the output of
    [serialize] is the declaration and an [entry] element holding the
    elements of [entry_elements], each with a plain text; read back inside
    [<anime>], it yields exactly one record, which is a fresh record to
    which the status text has been applied by the setter of the status of
    the series, and then the score text by the setter of the score.  No
    other element of the output reaches a setter: the names [episode],
    [date_start], [date_finish], [enable_rewatching], [tags],
    [rewatch_episode] and the others are not names of the table.  The text
    cleaning is any function that makes no non-empty text empty.  Nothing
    is said of a record whose tags hold markup, which [serialize] writes as
    it stands. *)
Theorem serialize_round_trip
        (parse_html_entities : string -> string) (setters : AnimeSetters)
        (set_parse : Glib_Date -> string -> Glib_Date) (r : Anime) (last : Z) :
  plain_tags (tags r) = true ->
  (forall s, parse_html_entities s = EmptyString -> s = EmptyString) ->
  serialize set_parse r
  = xml_declaration_entry ++ elements_text (entry_elements set_parse r) ++ "</entry>"
  /\ Forall (fun e => plain_body (snd e) = true) (entry_elements set_parse r)
  /\ exists nodes : list xml_node,
       round_trip_nodes set_parse r = Some nodes
       /\ fst (deserialize_reader parse_html_entities setters
                 {| reader_nodes := nodes; reader_last := last |})
          = [set_score setters
               (set_series_status setters Anime_new
                  (parse_html_entities (to_string (status r))))
               (parse_html_entities (to_string (score r)))].
Proof.
  intros Htags Hclean.
  split; [apply serialize_elements |].
  split; [apply plain_entry_elements, Htags |].
  exists (shape_A [entry_elements set_parse r]).
  split; [unfold round_trip_nodes; rewrite Htags; reflexivity |].
  rewrite deserialize_reader_res. cbn [reader_nodes].
  apply round_trip_records, Hclean.
Qed.

Lemma serialize_round_trip_witness :
  let r := with_tags ["comedy"; "school life"]
             (with_score 8 (with_status 2 (with_episodes 3 Anime_new))) in
  serialize (fun d _ => d) r
  = xml_declaration_entry ++ elements_text (entry_elements (fun d _ => d) r) ++ "</entry>"
  /\ Forall (fun e => plain_body (snd e) = true) (entry_elements (fun d _ => d) r)
  /\ exists nodes : list xml_node,
       round_trip_nodes (fun d _ => d) r = Some nodes
       /\ fst (deserialize_reader (fun s => s) spec_setters
                 {| reader_nodes := nodes; reader_last := 0 |})
          = [set_score spec_setters (set_series_status spec_setters Anime_new "2") "8"].
Proof.
  intro r.
  apply (serialize_round_trip (fun s => s) spec_setters (fun d _ => d) r 0).
  - reflexivity.
  - intros s H. exact H.
Defined.

(** Tags that hold markup are written as they stand: the output for the
    tag [<score>3</score>] holds a second [score] element inside [tags],
    and no node sequence is given for it. *)
Example serialize_tags_with_markup :
  let r := with_tags ["<score>3</score>"] (with_score 8 Anime_new) in
  plain_tags (tags r) = false
  /\ round_trip_nodes (fun d _ => d) r = None
  /\ element_body "tags" (serialize (fun d _ => d) r) = Some "<score>3</score>".
Proof. repeat split; vm_compute; reflexivity. Qed.

(** ** The form of a date *)

Lemma two_digits_length (z : Z) :
  0 <= z < 100 -> String.length (two_digits z) = 2%nat.
Proof.
  intro Hz.
  assert (Hall : forallb (fun k => Nat.eqb (String.length (two_digits (Z.of_nat k))) 2)
                         (seq 0 100) = true) by (vm_compute; reflexivity).
  rewrite forallb_forall in Hall.
  specialize (Hall (Z.to_nat z)). rewrite Z2Nat.id in Hall by lia.
  apply Nat.eqb_eq, Hall, in_seq. lia.
Qed.

Lemma four_digits_length (z : Z) :
  1000 <= z <= 9999 -> String.length (to_string z) = 4%nat.
Proof.
  intro Hz.
  assert (Hall : forallb (fun k => Nat.eqb (String.length (to_string (Z.of_nat k))) 4)
                         (seq (10 * 100) (90 * 100)) = true) by (vm_compute; reflexivity).
  rewrite forallb_forall in Hall.
  specialize (Hall (Z.to_nat z)). rewrite Z2Nat.id in Hall by lia.
  apply Nat.eqb_eq, Hall, in_seq. lia.
Qed.

Lemma string_length_app (s t : string) :
  String.length (s ++ t) = (String.length s + String.length t)%nat.
Proof.
  induction s as [|c s IH]; [reflexivity |].
  cbn [append String.length]. rewrite IH. reflexivity.
Qed.

(** A date of the calendar with a year of four digits is written on eight
    characters. *)
Lemma format_string_mdY_length (d : Glib_Date) :
  1 <= date_month d <= 12 -> 1 <= date_day d <= 31 ->
  1000 <= date_year d <= 9999 ->
  String.length (format_string d "%m%d%Y") = 8%nat.
Proof.
  intros Hm Hd Hy.
  rewrite format_string_mdY, !string_length_app.
  rewrite !two_digits_length, four_digits_length by lia. reflexivity.
Qed.







(* ================================================================== *)
(** * Part III: further properties *)
(* ================================================================== *)

(** ** What the deserializer returns *)

(** X1: a search result [<anime><entry>..</entry>..</anime>] with at least
    one entry, whose fields bear names of the table, deserializes to one
    record for each entry, in the order of the entries; the record of an
    entry is a fresh record to which the setters of its fields have been
    applied in order, each to the cleaned text of its field. *)
Theorem search_result_records
        (parse_html_entities : string -> string) (setters : AnimeSetters)
        (items : list (list (string * string))) (last : Z) :
  items <> [] ->
  forallb valid_item items = true ->
  let records := fst (deserialize_reader parse_html_entities setters
                        {| reader_nodes := shape_A items; reader_last := last |}) in
  records = map (item_record parse_html_entities setters) (logical_items items)
  /\ length records = length items.
Proof.
  intros Hnonempty Hvalid records. subst records.
  rewrite deserialize_shape_A by assumption.
  split; [reflexivity |].
  unfold logical_items. rewrite !length_map. reflexivity.
Qed.

Lemma search_result_records_witness :
  let items := [[("id", "5"); ("title", "Foo"); ("user_id", "9")]; []] in
  let records := fst (deserialize_reader (fun s => s) spec_setters
                        {| reader_nodes := shape_A items; reader_last := 0 |}) in
  records = map (item_record (fun s => s) spec_setters) (logical_items items)
  /\ length records = length items.
Proof.
  intros items records.
  apply (search_result_records (fun s => s) spec_setters items 0).
  - discriminate.
  - reflexivity.
Defined.

(** X2: a list [<entry><anime>..</anime>..</entry>] whose fields bear
    names of the table deserializes to one record for each item, in order;
    a list without items deserializes to no record. *)
Theorem list_records
        (parse_html_entities : string -> string) (setters : AnimeSetters)
        (items : list (list (string * string))) (last : Z) :
  forallb valid_item items = true ->
  let records := fst (deserialize_reader parse_html_entities setters
                        {| reader_nodes := shape_B items; reader_last := last |}) in
  records = map (item_record parse_html_entities setters) (logical_items items)
  /\ length records = length items.
Proof.
  intros Hvalid records. subst records.
  rewrite deserialize_shape_B by assumption.
  split; [reflexivity |].
  unfold logical_items. rewrite !length_map. reflexivity.
Qed.

Lemma list_records_witness :
  let items := [[("series_animedb_id", "5"); ("my_score", "8")];
                [("series_title", "Bar")]] in
  let records := fst (deserialize_reader (fun s => s) spec_setters
                        {| reader_nodes := shape_B items; reader_last := 0 |}) in
  records = map (item_record (fun s => s) spec_setters) (logical_items items)
  /\ length records = length items.
Proof.
  intros items records.
  apply (list_records (fun s => s) spec_setters items 0).
  reflexivity.
Defined.

Section MoreLoopFacts.

Variable parse_html_entities : string -> string.
Variable setters : AnimeSetters.

Local Abbreviation process := (process_node parse_html_entities setters).
Local Abbreviation run := (read_loop parse_html_entities setters).

(** One iteration appends at most one record, and only on a named
    end-element. *)
Lemma process_node_res_grows (st : loop_state) (node : xml_node) :
  exists more : list Anime,
    res (process st node) = (res st ++ more)%list
    /\ (length more <= if named_end_element node then 1 else 0)%nat.
Proof.
  unfold process_node, named_end_element, has_name.
  destruct (0 <? String.length (xmlchar_to_str (ConstName node)))%nat.
  - cbn [andb].
    destruct (NodeType node);
      try (exists []; rewrite app_nil_r; split;
           [ first [ rewrite on_text_res; apply resolve_name_res
                   | apply resolve_name_res ]
           | cbn [length]; lia ]).
    rewrite on_end_element_res, resolve_name_res.
    destruct (FIELDS_eqb _ _).
    + eexists. split; [reflexivity | cbn [length]; lia].
    + exists []. rewrite app_nil_r. split; [reflexivity | cbn [length]; lia].
  - exists []. rewrite app_nil_r. split; [reflexivity | cbn [length andb]; lia].
Qed.

Lemma read_loop_res_grows (nodes : list xml_node) (st : loop_state) :
  exists more : list Anime,
    res (run st nodes) = (res st ++ more)%list
    /\ (length more <= length (filter named_end_element nodes))%nat.
Proof.
  revert st. induction nodes as [|node nodes IH]; intro st.
  - exists []. rewrite app_nil_r. split; [reflexivity | cbn; lia].
  - rewrite read_loop_cons.
    destruct (process_node_res_grows st node) as (m1 & H1 & L1).
    destruct (IH (process st node)) as (m2 & H2 & L2).
    exists (m1 ++ m2)%list. rewrite H2, H1, <- app_assoc.
    split; [reflexivity |].
    rewrite length_app. cbn [filter].
    destruct (named_end_element node); cbn [length]; lia.
Qed.

(** A node without a name leaves the state as it is. *)
Lemma process_nameless (st : loop_state) (node : xml_node) :
  has_name node = false -> process st node = st.
Proof.
  unfold has_name, process_node. intros ->. reflexivity.
Qed.

Lemma read_loop_nameless (nodes : list xml_node) (st : loop_state) :
  run st nodes = run st (filter has_name nodes).
Proof.
  revert st. induction nodes as [|node nodes IH]; intro st; [reflexivity |].
  cbn [filter]. destruct (has_name node) eqn:Hname.
  - rewrite !read_loop_cons. apply IH.
  - rewrite read_loop_cons, process_nameless by exact Hname. apply IH.
Qed.

End MoreLoopFacts.

(** X3: the records finalized are never taken back.  What [deserialize]
    returns for the first nodes of a document, if the reader fails after
    them, is the beginning of what it returns for the whole document. *)
Theorem finalized_records_stay
        (parse_html_entities : string -> string) (setters : AnimeSetters)
        (nodes rest : list xml_node) (last last' : Z) :
  exists more : list Anime,
    fst (deserialize_reader parse_html_entities setters
           {| reader_nodes := (nodes ++ rest)%list; reader_last := last' |})
    = (fst (deserialize_reader parse_html_entities setters
              {| reader_nodes := nodes; reader_last := last |}) ++ more)%list.
Proof.
  rewrite !deserialize_reader_res. cbn [reader_nodes].
  rewrite read_loop_app.
  destruct (read_loop_res_grows parse_html_entities setters rest
              (read_loop parse_html_entities setters initial_state nodes))
    as (more & Hmore & _).
  exists more. exact Hmore.
Qed.

(** X4: [deserialize] returns at most as many records as the document has
    named end-elements: a record is appended by an end-element only, and by
    each at most once. *)
Theorem records_bounded_by_end_elements
        (parse_html_entities : string -> string) (setters : AnimeSetters)
        (reader : xmlTextReader) :
  (length (fst (deserialize_reader parse_html_entities setters reader))
   <= length (filter named_end_element (reader_nodes reader)))%nat.
Proof.
  rewrite deserialize_reader_res.
  destruct (read_loop_res_grows parse_html_entities setters
              (reader_nodes reader) initial_state) as (more & Hmore & Hlen).
  rewrite Hmore. cbn [initial_state res app]. exact Hlen.
Qed.

(** X5: the nodes without a name (line 166) count for nothing: the result
    of [deserialize], records and printed lines alike, is that of the
    document without them. *)
Theorem nameless_nodes_are_skipped
        (parse_html_entities : string -> string) (setters : AnimeSetters)
        (nodes : list xml_node) (last : Z) :
  deserialize_reader parse_html_entities setters
    {| reader_nodes := nodes; reader_last := last |}
  = deserialize_reader parse_html_entities setters
      {| reader_nodes := filter has_name nodes; reader_last := last |}.
Proof.
  unfold deserialize_reader. cbn [reader_nodes reader_last].
  rewrite (read_loop_nameless parse_html_entities setters nodes). reflexivity.
Qed.

(** ** White space between the tags *)

Section Indentation.

Variable parse_html_entities : string -> string.
Variable setters : AnimeSetters.

Local Abbreviation process := (process_node parse_html_entities setters).
Local Abbreviation run := (read_loop parse_html_entities setters).

Lemma known_name_has_name (node : xml_node) :
  known_name node = true -> has_name node = true.
Proof.
  unfold known_name, has_name.
  destruct (xmlchar_to_str (ConstName node)); [discriminate | reflexivity].
Qed.

(** A node with a name of the table makes [prev_field] the former
    [field]: two states that differ in [prev_field] only differ in it no
    more. *)
Lemma same_but_prev_step (a b : loop_state) (node : xml_node) :
  known_name node = true ->
  same_but_prev a b -> same_but_prev (process a node) (process b node).
Proof.
  intros Hknown H. pose proof (known_name_has_name node Hknown) as Hname.
  unfold known_name in Hknown. unfold has_name in Hname.
  unfold process_node. rewrite Hname. unfold resolve_name.
  destruct (field_map_find (xmlchar_to_str (ConstName node))) as [f|];
    [| discriminate].
  destruct a, b. unfold same_but_prev in *. cbn in H.
  destruct H as (-> & -> & -> & -> & -> & ->).
  destruct (NodeType node);
    try (cbn; repeat split; reflexivity).
  unfold on_text. cbn [field prev_field].
  destruct (FIELDS_eqb f FIELDTEXT);
    destruct (0 <? String.length (parse_html_entities _))%nat;
    try destruct (member_map_find setters _);
    cbn; repeat split; reflexivity.
Qed.

(** White space before a node that is no text changes [prev_field]
    only. *)
Lemma same_but_prev_space (a b : loop_state) (text : string) (node : xml_node) :
  known_name node = true -> is_text_node node = false ->
  same_but_prev a b ->
  same_but_prev (process a node) (process (process b (WhitespaceNode text)) node).
Proof.
  intros Hknown Htext H. pose proof (known_name_has_name node Hknown) as Hname.
  unfold known_name in Hknown. unfold has_name in Hname.
  unfold is_text_node in Htext.
  change (process b (WhitespaceNode text))
    with {| anime := anime b; field := FIELDTEXT; prev_field := field b;
            entry_after_anime := entry_after_anime b;
            seen_anime := seen_anime b; seen_entry := seen_entry b;
            res := res b; cerr := cerr b |}.
  unfold process_node. rewrite Hname. unfold resolve_name.
  destruct (field_map_find (xmlchar_to_str (ConstName node))) as [f|];
    [| discriminate].
  destruct a, b. unfold same_but_prev in *. cbn in H.
  destruct H as (-> & -> & -> & -> & -> & ->).
  destruct (NodeType node); try discriminate Htext;
    cbn; repeat split; reflexivity.
Qed.

Lemma indented_res (compact pretty : list xml_node) (a b : loop_state) :
  forallb known_name compact = true ->
  indented compact pretty ->
  same_but_prev a b ->
  res (run a compact) = res (run b pretty).
Proof.
  intros Hknown Hindented. revert a b Hknown.
  induction Hindented as [| text | node compact pretty _ IH
                          | text node compact pretty Htext _ IH];
    intros a b Hknown H.
  - apply H.
  - cbn [read_loop fold_left].
    destruct H as (_ & _ & _ & _ & _ & ->). reflexivity.
  - cbn [forallb] in Hknown. apply andb_true_iff in Hknown.
    destruct Hknown as [Hnode Hknown].
    rewrite !read_loop_cons. apply IH; [exact Hknown |].
    apply same_but_prev_step; assumption.
  - cbn [forallb] in Hknown. apply andb_true_iff in Hknown.
    destruct Hknown as [Hnode Hknown].
    rewrite !read_loop_cons. apply IH; [exact Hknown |].
    apply same_but_prev_space; assumption.
Qed.

End Indentation.

(** X6: indentation is harmless.  For a document whose nodes all bear
    names of the table, the white space the reader reports between tags
    (before an element or an end-element, or at the end) changes none of the
    records returned. *)
Theorem indentation_is_harmless
        (parse_html_entities : string -> string) (setters : AnimeSetters)
        (compact pretty : list xml_node) (last last' : Z) :
  forallb known_name compact = true ->
  indented compact pretty ->
  fst (deserialize_reader parse_html_entities setters
         {| reader_nodes := pretty; reader_last := last' |})
  = fst (deserialize_reader parse_html_entities setters
           {| reader_nodes := compact; reader_last := last |}).
Proof.
  intros Hknown Hindented. rewrite !deserialize_reader_res. cbn [reader_nodes].
  symmetry. apply indented_res; try assumption.
  repeat split; reflexivity.
Qed.

Lemma indentation_is_harmless_witness :
  let nl := String (ascii_of_nat 10) "  " in
  let compact := [ StartElement "anime"; StartElement "entry";
                   StartElement "id"; TextNode "5"; EndElement "id";
                   EndElement "entry"; EndElement "anime" ] in
  let pretty := [ StartElement "anime"; WhitespaceNode nl; StartElement "entry";
                  WhitespaceNode nl; StartElement "id"; TextNode "5"; EndElement "id";
                  WhitespaceNode nl; EndElement "entry";
                  WhitespaceNode nl; EndElement "anime"; WhitespaceNode nl ] in
  fst (deserialize_reader (fun s => s) spec_setters
         {| reader_nodes := pretty; reader_last := 0 |})
  = fst (deserialize_reader (fun s => s) spec_setters
           {| reader_nodes := compact; reader_last := 0 |}).
Proof.
  intros nl compact pretty.
  apply (indentation_is_harmless (fun s => s) spec_setters compact pretty 0 0).
  - reflexivity.
  - apply indented_same.
    apply indented_space; [reflexivity |].
    apply indented_space; [reflexivity |].
    apply indented_same. apply indented_same.
    apply indented_space; [reflexivity |].
    apply indented_space; [reflexivity |].
    apply indented_end.
Defined.

(** ** What is printed *)

Section Quiet.

Variable parse_html_entities : string -> string.
Variable setters : AnimeSetters.

Lemma quiet_node_cerr (st : loop_state) (node : xml_node) :
  quiet_node parse_html_entities node = true ->
  cerr (process_node parse_html_entities setters st node) = cerr st.
Proof.
  unfold quiet_node, has_name, process_node.
  destruct (0 <? String.length (xmlchar_to_str (ConstName node)))%nat;
    [| reflexivity].
  cbn [negb orb]. unfold resolve_name.
  destruct (field_map_find (xmlchar_to_str (ConstName node))) as [f|];
    [| discriminate].
  destruct (NodeType node); try discriminate; try reflexivity.
  intro H. apply andb_true_iff in H. destruct H as [Hf Hvalue].
  unfold on_text. cbn [field prev_field]. rewrite Hf, Hvalue.
  destruct (member_map_find setters _); reflexivity.
Qed.

Lemma quiet_nodes_cerr (nodes : list xml_node) (st : loop_state) :
  forallb (quiet_node parse_html_entities) nodes = true ->
  cerr (read_loop parse_html_entities setters st nodes) = cerr st.
Proof.
  revert st. induction nodes as [|node nodes IH]; intros st H; [reflexivity |].
  cbn [forallb] in H. apply andb_true_iff in H. destruct H as [Hnode Hnodes].
  rewrite read_loop_cons, (IH _ Hnodes). apply quiet_node_cerr, Hnode.
Qed.

End Quiet.

(** X7: nothing is printed for a document that is read to its end and
    whose named nodes are elements, end-elements and white space with names
    of the table, and texts called [#text] that are not empty once
    cleaned. *)
Theorem quiet_document
        (parse_html_entities : string -> string) (setters : AnimeSetters)
        (nodes : list xml_node) :
  forallb (quiet_node parse_html_entities) nodes = true ->
  snd (deserialize_reader parse_html_entities setters
         {| reader_nodes := nodes; reader_last := 0 |}) = [].
Proof.
  intro Hquiet. unfold deserialize_reader. cbn [reader_nodes reader_last Z.eqb snd].
  apply (quiet_nodes_cerr parse_html_entities setters nodes initial_state Hquiet).
Qed.

Lemma quiet_document_witness :
  snd (deserialize_reader (fun s => s) spec_setters
         {| reader_nodes := two_entries_nodes; reader_last := 0 |}) = [].
Proof.
  apply (quiet_document (fun s => s) spec_setters two_entries_nodes).
  reflexivity.
Defined.

(** ** Mirrored documents, cut documents, unknown elements *)

(** X8: the two shapes mirror each other for every content.  Whatever
    follows [<anime><entry>] in one document, if what follows
    [<entry><anime>] in another is the same node for node but for the two
    wrappers' names in each other's place (fields under any names that stand
    for the same tag, white space, elements of unknown name), the two
    documents deserialize to the same records. *)
Theorem mirrored_documents
        (parse_html_entities : string -> string) (setters : AnimeSetters)
        (body_A body_B : list xml_node) (last_A last_B : Z) :
  Forall2 mirror_node body_A body_B ->
  fst (deserialize_reader parse_html_entities setters
         {| reader_nodes := StartElement "anime" :: StartElement "entry" :: body_A;
            reader_last := last_A |})
  = fst (deserialize_reader parse_html_entities setters
           {| reader_nodes := StartElement "entry" :: StartElement "anime" :: body_B;
              reader_last := last_B |}).
Proof.
  intro Hbody. rewrite !deserialize_reader_res. cbn [reader_nodes].
  change (StartElement "anime" :: StartElement "entry" :: body_A)
    with ([StartElement "anime"; StartElement "entry"] ++ body_A)%list.
  change (StartElement "entry" :: StartElement "anime" :: body_B)
    with ([StartElement "entry"; StartElement "anime"] ++ body_B)%list.
  rewrite !read_loop_app.
  assert (Hstart : mirror_state
                     (read_loop parse_html_entities setters initial_state
                        [StartElement "anime"; StartElement "entry"])
                     (read_loop parse_html_entities setters initial_state
                        [StartElement "entry"; StartElement "anime"]))
    by (unfold mirror_state; repeat split; reflexivity).
  destruct (mirror_state_run parse_html_entities setters body_A body_B _ _
              Hbody Hstart) as (_ & Hres & _).
  exact Hres.
Qed.

Lemma mirrored_documents_witness :
  let body_A := [ WhitespaceNode " "; StartElement "title"; TextNode "Foo";
                  EndElement "title"; StartElement "xyz_unknown";
                  EndElement "xyz_unknown"; EndElement "entry";
                  StartElement "entry"; EndElement "entry"; EndElement "anime" ] in
  let body_B := [ WhitespaceNode " "; StartElement "series_title"; TextNode "Foo";
                  EndElement "series_title"; StartElement "other_unknown";
                  EndElement "other_unknown"; EndElement "anime";
                  StartElement "anime"; EndElement "anime"; EndElement "entry" ] in
  fst (deserialize_reader (fun s => s) spec_setters
         {| reader_nodes := StartElement "anime" :: StartElement "entry" :: body_A;
            reader_last := 0 |})
  = fst (deserialize_reader (fun s => s) spec_setters
           {| reader_nodes := StartElement "entry" :: StartElement "anime" :: body_B;
              reader_last := 0 |}).
Proof.
  intros body_A body_B.
  apply (mirrored_documents (fun s => s) spec_setters body_A body_B 0 0).
  repeat (apply Forall2_cons; [repeat split; reflexivity |]).
  apply Forall2_nil.
Defined.

(** X9: nothing is flushed at the end of the input.  A document in which
    no end-element closes a wrapper (every end-element bears a name of the
    table other than [entry] and [anime]) yields no record, whether the
    reader stops at the end of the document or on an error, and whatever the
    setters have stored by then. *)
Theorem cut_document_yields_nothing
        (parse_html_entities : string -> string) (setters : AnimeSetters)
        (nodes : list xml_node) (last : Z) :
  forallb not_wrapper_end nodes = true ->
  fst (deserialize_reader parse_html_entities setters
         {| reader_nodes := nodes; reader_last := last |}) = [].
Proof.
  intro Hnodes. unfold deserialize_reader. cbn [reader_nodes reader_last].
  destruct (last =? 0); cbn [fst res print];
    apply (read_loop_res parse_html_entities setters nodes initial_state Hnodes).
Qed.

Lemma cut_document_yields_nothing_witness :
  let nodes := [ StartElement "anime"; StartElement "entry";
                 StartElement "id"; TextNode "5"; EndElement "id";
                 StartElement "title"; TextNode "Foo" ] in
  fst (deserialize_reader (fun s => s) spec_setters
         {| reader_nodes := nodes; reader_last := -1 |}) = [].
Proof.
  intro nodes.
  apply (cut_document_yields_nothing (fun s => s) spec_setters nodes (-1)).
  reflexivity.
Defined.

(** X10: an element of unknown name that follows an end-element is
    harmless.  After any nodes and a named end-element, an element whose
    name the table does not know, followed by a text, gets a line printed
    and changes neither the record being filled nor the records
    finalized. *)
Theorem unknown_element_after_end_element
        (parse_html_entities : string -> string) (setters : AnimeSetters)
        (nodes : list xml_node) (closed name text : string) :
  (0 <? String.length closed)%nat = true ->
  (0 <? String.length name)%nat = true ->
  field_map_find name = None ->
  let st := read_loop parse_html_entities setters initial_state
              (nodes ++ [EndElement closed]) in
  let st' := read_loop parse_html_entities setters initial_state
               (nodes ++ [EndElement closed; StartElement name; TextNode text]) in
  anime st' = anime st /\ res st' = res st
  /\ In ("Unexpected field " ++ name) (cerr st').
Proof.
  intros Hclosed Hname Hunknown st st'.
  assert (Hfield : field st = FIELDNONE).
  { subst st. rewrite read_loop_app. cbn [read_loop fold_left].
    apply end_element_field, Hclosed. }
  assert (Hst' : st' = read_loop parse_html_entities setters st
                         [StartElement name; TextNode text]).
  { subst st st'. rewrite <- read_loop_app, <- app_assoc. reflexivity. }
  rewrite Hst'.
  apply unknown_element_text; try assumption.
  rewrite Hfield. reflexivity.
Qed.

Lemma unknown_element_after_end_element_witness :
  let nodes := [ StartElement "anime"; StartElement "entry";
                 StartElement "id"; TextNode "5" ] in
  let st := read_loop (fun s => s) spec_setters initial_state
              (nodes ++ [EndElement "id"]) in
  let st' := read_loop (fun s => s) spec_setters initial_state
               (nodes ++ [EndElement "id"; StartElement "xyz_unknown"; TextNode "oops"]) in
  anime st' = anime st /\ res st' = res st
  /\ In ("Unexpected field " ++ "xyz_unknown") (cerr st').
Proof.
  intros nodes.
  apply (unknown_element_after_end_element (fun s => s) spec_setters
           nodes "id" "xyz_unknown" "oops"); reflexivity.
Defined.

(** ** The tables *)

(** X11: no entry of the two tables is shadowed by another, and the tags
    without a setter are exactly [FIELDNONE], [FIELDTEXT], [ANIME], [ENTRY]
    and [USERID]: of the names of the table that stand for data, only
    [user_id] has its text dropped. *)
Theorem tables_coverage (setters : AnimeSetters) :
  Forall (fun e => field_map_find (fst e) = Some (snd e)) initialize_field_map
  /\ Forall (fun e => member_map_find setters (fst e) = Some (snd e))
            (initialize_member_map setters)
  /\ forall f : FIELDS,
       member_map_find setters f = None
       <-> (f = FIELDNONE \/ f = FIELDTEXT \/ f = ANIME \/ f = ENTRY \/ f = USERID).
Proof.
  split; [| split].
  - unfold initialize_field_map. repeat (apply Forall_cons; [reflexivity |]).
    apply Forall_nil.
  - unfold initialize_member_map. repeat (apply Forall_cons; [reflexivity |]).
    apply Forall_nil.
  - intro f. split.
    + destruct f; cbn; intro H; try discriminate H; tauto.
    + intros [-> | [-> | [-> | [-> | ->]]]]; reflexivity.
Qed.

(** ** The elements of the output of [serialize] *)

Lemma join_tags_rest (tags : list string) :
  join_tags false tags
  = match tags with
    | [] => EmptyString
    | _ => "; " ++ String.concat "; " tags
    end.
Proof.
  induction tags as [|t tags IH]; [reflexivity |].
  cbn [join_tags negb]. rewrite IH.
  destruct tags as [|u tags].
  - cbn [String.concat]. rewrite string_app_nil. reflexivity.
  - cbn [String.concat]. reflexivity.
Qed.

(** X12: the loop that writes the tags (lines 279-287) joins them with
    [; ] in the order of the container: no separator before the first tag
    or after the last one, nothing at all for no tag. *)
Theorem join_tags_concat (tags : list string) :
  join_tags true tags = String.concat "; " tags.
Proof.
  destruct tags as [|t tags]; [reflexivity |].
  cbn [join_tags negb append]. rewrite join_tags_rest.
  destruct tags as [|u tags].
  - cbn [String.concat]. apply string_app_nil.
  - reflexivity.
Qed.

Lemma clear_of_join_tags (was_first : bool) (tags : list string) :
  forallb (clear_of "<") tags = true ->
  clear_of "<" (join_tags was_first tags) = true.
Proof.
  revert was_first. induction tags as [|t tags IH]; intros was_first H;
    [reflexivity |].
  cbn [forallb] in H. apply andb_true_iff in H. destruct H as [Ht Htags].
  cbn [join_tags]. rewrite !clear_of_app, Ht, (IH false Htags).
  destruct was_first; reflexivity.
Qed.

Ltac read_element name :=
  unfold element_body;
  let o := eval cbv in ("<" ++ name ++ ">") in
  let c := eval cbv in ("</" ++ name ++ ">") in
  change ("<" ++ name ++ ">") with o;
  change ("</" ++ name ++ ">") with c;
  repeat (rewrite find_after_never_starts by plain_text);
  rewrite find_after_here;
  try (rewrite find_before_never_starts by plain_text);
  rewrite find_before_here; cbn [option_map];
  rewrite ?string_app_nil.

Section SerializeElements.

Variable set_parse : Glib_Date -> string -> Glib_Date.

Lemma serialize_episode (r : Anime) :
  element_body "episode" (serialize set_parse r) = Some (to_string (episodes r)).
Proof. unfold serialize. read_element "episode". reflexivity. Qed.

Lemma serialize_status (r : Anime) :
  element_body "status" (serialize set_parse r) = Some (to_string (status r)).
Proof. unfold serialize. read_element "status". reflexivity. Qed.

Lemma serialize_score (r : Anime) :
  element_body "score" (serialize set_parse r) = Some (to_string (score r)).
Proof. unfold serialize. read_element "score". reflexivity. Qed.

Lemma serialize_downloaded_episodes (r : Anime) :
  element_body "downloaded_episodes" (serialize set_parse r)
  = Some (to_string (downloaded_items r)).
Proof. unfold serialize. read_element "downloaded_episodes". reflexivity. Qed.

End SerializeElements.

(** X13: the numbers [serialize] writes can be read back.  In its output
    the elements [episode], [status], [score] and [downloaded_episodes] hold
    the decimal numerals of the fields [episodes], [status], [score] and
    [downloaded_items], which [stoll] reads back to the fields' values,
    negative ones included. *)
Theorem serialize_numbers_read_back
        (set_parse : Glib_Date -> string -> Glib_Date) (r : Anime) :
  element_number "episode" (serialize set_parse r) = Some (episodes r)
  /\ element_number "status" (serialize set_parse r) = Some (status r)
  /\ element_number "score" (serialize set_parse r) = Some (score r)
  /\ element_number "downloaded_episodes" (serialize set_parse r)
     = Some (downloaded_items r).
Proof.
  unfold element_number.
  rewrite serialize_episode, serialize_status, serialize_score,
    serialize_downloaded_episodes, !stoll_to_string.
  repeat split; reflexivity.
Qed.

(** X14: eight elements of the output are always there and always empty,
    whatever the record: [storage_type], [storage_value], [times_rewatched],
    [rewatch_value], [priority], [enable_discussion], [comments] and
    [fansub_group]. *)
Theorem serialize_empty_elements
        (set_parse : Glib_Date -> string -> Glib_Date) (r : Anime) :
  Forall (fun name => element_body name (serialize set_parse r) = Some EmptyString)
         [ "storage_type"; "storage_value"; "times_rewatched"; "rewatch_value";
           "priority"; "enable_discussion"; "comments"; "fansub_group" ].
Proof.
  unfold serialize. destruct (enable_reconsuming r).
  - repeat (apply Forall_cons;
            [ match goal with
              | |- element_body ?name _ = _ => read_element name; reflexivity
              end |]).
    apply Forall_nil.
  - repeat (apply Forall_cons;
            [ match goal with
              | |- element_body ?name _ = _ => read_element name; reflexivity
              end |]).
    apply Forall_nil.
Qed.

(** X15: the element [enable_rewatching] of the output holds [1] when the
    record has the re-watching flag set, and [0] when it has not. *)
Theorem serialize_rewatching_flag
        (set_parse : Glib_Date -> string -> Glib_Date) (r : Anime) :
  element_body "enable_rewatching" (serialize set_parse r)
  = Some (if enable_reconsuming r then "1" else "0").
Proof.
  unfold serialize. destruct (enable_reconsuming r);
    read_element "enable_rewatching"; reflexivity.
Qed.

(** X16: for a record whose tags hold no [<], the element [tags] of the
    output holds the tags joined with [; ], and the element
    [rewatch_episode] that follows holds the numeral of the field
    [rewatch_episode], which [stoll] reads back. *)
Theorem serialize_tags
        (set_parse : Glib_Date -> string -> Glib_Date) (r : Anime) :
  forallb (clear_of "<") (tags r) = true ->
  element_body "tags" (serialize set_parse r) = Some (String.concat "; " (tags r))
  /\ element_number "rewatch_episode" (serialize set_parse r)
     = Some (rewatch_episode r).
Proof.
  intro Htags.
  pose proof (clear_of_never_starts "<" "/tags>" _
                (clear_of_join_tags true (tags r) Htags)) as Hclose.
  pose proof (clear_of_never_starts "<" "rewatch_episode>" _
                (clear_of_join_tags true (tags r) Htags)) as Hopen.
  unfold element_number, serialize.
  destruct (enable_reconsuming r); split.
  - unfold element_body.
    change ("<" ++ "tags" ++ ">") with "<tags>".
    change ("</" ++ "tags" ++ ">") with "</tags>".
    repeat (rewrite find_after_never_starts by plain_text).
    rewrite find_after_here, find_before_never_starts by exact Hclose.
    rewrite find_before_here. cbn [option_map].
    rewrite string_app_nil, join_tags_concat. reflexivity.
  - unfold element_body.
    change ("<" ++ "rewatch_episode" ++ ">") with "<rewatch_episode>".
    change ("</" ++ "rewatch_episode" ++ ">") with "</rewatch_episode>".
    repeat (rewrite find_after_never_starts by (first [exact Hopen | plain_text])).
    rewrite find_after_here, find_before_never_starts by plain_text.
    rewrite find_before_here. cbn [option_map].
    rewrite string_app_nil. apply stoll_to_string.
  - unfold element_body.
    change ("<" ++ "tags" ++ ">") with "<tags>".
    change ("</" ++ "tags" ++ ">") with "</tags>".
    repeat (rewrite find_after_never_starts by plain_text).
    rewrite find_after_here, find_before_never_starts by exact Hclose.
    rewrite find_before_here. cbn [option_map].
    rewrite string_app_nil, join_tags_concat. reflexivity.
  - unfold element_body.
    change ("<" ++ "rewatch_episode" ++ ">") with "<rewatch_episode>".
    change ("</" ++ "rewatch_episode" ++ ">") with "</rewatch_episode>".
    repeat (rewrite find_after_never_starts by (first [exact Hopen | plain_text])).
    rewrite find_after_here, find_before_never_starts by plain_text.
    rewrite find_before_here. cbn [option_map].
    rewrite string_app_nil. apply stoll_to_string.
Qed.

Lemma serialize_tags_witness :
  let r := with_rewatch_episode 4 (with_tags ["comedy"; "school life"] Anime_new) in
  element_body "tags" (serialize (fun d _ => d) r) = Some "comedy; school life"
  /\ element_number "rewatch_episode" (serialize (fun d _ => d) r) = Some 4.
Proof.
  intro r. apply (serialize_tags (fun d _ => d) r). reflexivity.
Defined.

(** ** The comparator and the traversal of a collection *)

(** X17: [MALItemComparator] is a strict weak ordering, as [std::set]
    requires of its comparator: no entry orders before itself, two entries
    never order before each other, ordering before is transitive, and so is
    being equivalent (neither entry ordering before the other). *)
Theorem MALItemComparator_strict_weak_ordering
        (T : Type) (T_series_date_begin T_series_title : T -> string) :
  let comp := MALItemComparator T T_series_date_begin T_series_title in
  (forall a, comp a a = false)
  /\ (forall a b, comp a b = true -> comp b a = false)
  /\ (forall a b c, comp a b = true -> comp b c = true -> comp a c = true)
  /\ (forall a b c, equiv_key T comp a b = true -> equiv_key T comp b c = true ->
                    equiv_key T comp a c = true).
Proof.
  intro comp. subst comp. repeat split.
  - apply MALItemComparator_irrefl.
  - intros a b Hab.
    destruct (MALItemComparator T T_series_date_begin T_series_title b a) eqn:Hba;
      [| reflexivity].
    pose proof (MALItemComparator_trans _ _ _ _ _ _ Hab Hba) as Haa.
    rewrite MALItemComparator_irrefl in Haa. discriminate.
  - apply MALItemComparator_trans.
  - intros a b c Hab Hbc.
    apply equiv_key_spec in Hab. apply equiv_key_spec in Hbc.
    apply equiv_key_spec. destruct Hab, Hbc. split; congruence.
Qed.

(** X18: an entry without a start date comes after every entry that has
    one: [substr(0,7)] of the empty date is empty and compares below every
    other prefix. *)
Theorem undated_entries_last (a b : Anime) :
  series_date_begin a = EmptyString ->
  series_date_begin b <> EmptyString ->
  anime_comparator b a = true /\ anime_comparator a b = false.
Proof.
  intros Ha Hb. unfold anime_comparator, MALItemComparator, string_compare, substr.
  rewrite Ha. destruct (series_date_begin b) as [|c rest]; [contradiction Hb; reflexivity |].
  split; reflexivity.
Qed.

Lemma undated_entries_last_witness :
  let a := with_series_title "Aria" Anime_new in
  let b := with_series_title "Zeta" (with_series_date_begin "1985-03-02" Anime_new) in
  anime_comparator b a = true /\ anime_comparator a b = false.
Proof.
  intros a b. apply (undated_entries_last a b).
  - reflexivity.
  - discriminate.
Defined.

(** X19: a collection cannot hold two entries of the same season and
    title, even of different catalog ids: inserting an entry into a
    collection that holds one with the same year-month prefix of the start
    date and the same title leaves the collection as it was (the entry
    stored is kept, the new one is not stored). *)
Theorem insert_of_equivalent_entry
        (ops : list (set_operation Anime)) (stored new : Anime) :
  In stored (set_after Anime anime_comparator ops) ->
  substr (series_date_begin new) 0 7 = substr (series_date_begin stored) 0 7 ->
  series_title new = series_title stored ->
  set_insert Anime anime_comparator new (set_after Anime anime_comparator ops)
  = set_after Anime anime_comparator ops.
Proof.
  intros Hstored Hseason Htitle.
  apply (insert_equivalent_is_dropped new stored).
  - apply set_after_ordered. apply anime_comparator_trans.
  - exact Hstored.
  - apply equiv_key_spec. auto.
Qed.

Lemma insert_of_equivalent_entry_witness :
  let stored := with_series_itemdb_id 5
                  (with_series_title "Foo" (with_series_date_begin "2020-04-11" Anime_new)) in
  let new := with_series_itemdb_id 7
               (with_series_title "Foo" (with_series_date_begin "2020-04-25" Anime_new)) in
  let other := with_series_title "Bar" (with_series_date_begin "2021-01-09" Anime_new) in
  let ops := [op_insert stored; op_insert other] in
  set_insert Anime anime_comparator new (set_after Anime anime_comparator ops)
  = set_after Anime anime_comparator ops.
Proof.
  intros stored new other ops.
  apply (insert_of_equivalent_entry ops stored new).
  - right. left. reflexivity.
  - reflexivity.
  - reflexivity.
Defined.

Lemma for_each_record (entries seen : list Anime) :
  for_each_anime (list Anime) record_call entries seen = (seen ++ entries)%list.
Proof.
  unfold for_each_anime, std_for_each. revert seen.
  induction entries as [|e entries IH]; intro seen.
  - rewrite app_nil_r. reflexivity.
  - cbn [fold_left]. rewrite IH. unfold record_call.
    rewrite <- app_assoc. reflexivity.
Qed.

(** X20: [for_each_anime] calls the function object once on every entry
    of the collection, in the order of the collection: the entries on which
    it is called, in the order of the calls, are the entries of the
    collection, latest season first and, within a season, smallest title
    first.  Of two calls, the earlier one is on an entry that orders before
    the entry of the later one, so no two calls are on equivalent
    entries. *)
Theorem for_each_anime_order (ops : list (set_operation Anime)) :
  let visited := for_each_anime (list Anime) record_call
                   (set_after Anime anime_comparator ops) [] in
  visited = set_after Anime anime_comparator ops
  /\ StronglySorted (fun a b => anime_comparator a b = true) visited
  /\ forall (i j : nat) (a b : Anime),
       nth_error visited i = Some a ->
       nth_error visited j = Some b ->
       (i < j)%nat ->
       anime_comparator a b = true
       /\ equiv_key Anime anime_comparator a b = false.
Proof.
  intro visited. subst visited.
  rewrite for_each_record. cbn [app].
  pose proof (set_after_ordered Anime anime_comparator anime_comparator_trans ops)
    as Hordered.
  split; [reflexivity |]. split; [exact Hordered |].
  intros i j a b Ha Hb Hij.
  assert (Hab : anime_comparator a b = true)
    by (eapply (ordered_nth Anime anime_comparator); eauto).
  split; [exact Hab |].
  unfold equiv_key. rewrite Hab. reflexivity.
Qed.

(** Two entries inserted the older season first are visited the newer
    season first. *)
Lemma for_each_anime_order_witness :
  let spring_2020 := with_series_title "Kaguya" (with_series_date_begin "2020-04-11" Anime_new) in
  let autumn_2019 := with_series_title "Beastars" (with_series_date_begin "2019-10-10" Anime_new) in
  let ops := [op_insert autumn_2019; op_insert spring_2020] in
  for_each_anime (list Anime) record_call (set_after Anime anime_comparator ops) []
  = [spring_2020; autumn_2019].
Proof.
  intros spring_2020 autumn_2019 ops.
  exact (proj1 (for_each_anime_order ops)).
Defined.
